(** * TopCloud/loadbalancer: the routing and health-monitoring core of src/index.js

    A shallow embedding of the LoadBalancer object of [src/index.js] and the
    properties its specification states about it.

    Conventions of the embedding.
    - A JavaScript number that the code only compares and adds (client counts,
      requests per minute, ports) is an integer [Z]; [Infinity] is added where
      the code uses it ([number]). The code computes with doubles: its sums
      are those of [Z] as long as they stay within [2^53] in magnitude
      ([safe_slots]), and the statements about scores are made in that range.
    - [Math.random()] is an input of every function that calls it: a rational
      [random], which the language guarantees to satisfy [0 <= random < 1].
      The code floors the double nearest to [random * length]; the index of
      the embedding is the floor of the exact product, which is the same
      index whenever the product is not within [draw_margin] below an
      integer ([draws_inside]). Both indices lie within the list.
    - A call that can raise a [TypeError] returns a [completion].
    - [undefined] and [null] are [None]. *)

From Stdlib Require Import ZArith QArith Qround Ascii String List Sorted Lia.
From stdpp Require Import base option list sorting gmap strings.

Local Open Scope Z_scope.

(** ** JavaScript values used by the balancer *)

(** Numbers with [Infinity], as [calculateLeastBusyPort] uses them. *)
Inductive number : Type :=
| Fin (z : Z)
| Infinity.

Definition num_add (a b : number) : number :=
  match a, b with
  | Fin x, Fin y => Fin (x + y)
  | _, _ => Infinity
  end.

(** [a < b] *)
Definition num_lt (a b : number) : bool :=
  match a, b with
  | Fin x, Fin y => x <? y
  | Fin _, Infinity => true
  | Infinity, _ => false
  end.

(** [a == Infinity] *)
Definition is_Infinity (a : number) : bool :=
  match a with
  | Infinity => true
  | Fin _ => false
  end.

Definition num_le (a b : number) : Prop := num_lt b a = false.

(** The outcome of a call: a value, or a thrown [TypeError]
    (reading a property of [undefined]). *)
Inductive completion (A : Type) : Type :=
| Normal (a : A)
| TypeError.
Arguments Normal {A} a.
Arguments TypeError {A}.

#[global] Instance completion_ret : MRet completion := fun A a => Normal a.

#[global] Instance completion_bind : MBind completion :=
  fun A B k c =>
    match c with
    | Normal a => k a
    | TypeError => TypeError
    end.

(** [arr[i]] for an array and a number that is an integer: [undefined]
    outside the array. *)
Definition array_get {A : Type} (arr : list A) (i : Z) : option A :=
  if i <? 0 then None else arr !! Z.to_nat i.

(** *** Objects with integer keys, in enumeration order

    [for (i in obj)] visits the keys that are array indices
    ([0 <= k < 2^32 - 1]) in ascending order, then the other keys in the order
    in which they were created. A [jsobj] lists the properties in that order. *)
Definition jsobj (V : Type) : Type := list (Z * V).

Definition is_index (k : Z) : bool := (0 <=? k) && (k <? 2 ^ 32 - 1).

Fixpoint obj_get {V : Type} (o : jsobj V) (k : Z) : option V :=
  match o with
  | [] => None
  | (k', v) :: o' => if k' =? k then Some v else obj_get o' k
  end.

Fixpoint obj_replace {V : Type} (k : Z) (v : V) (o : jsobj V) : jsobj V :=
  match o with
  | [] => []
  | (k', v') :: o' =>
      if k' =? k then (k, v) :: o' else (k', v') :: obj_replace k v o'
  end.

Fixpoint obj_create {V : Type} (k : Z) (v : V) (o : jsobj V) : jsobj V :=
  match o with
  | [] => [(k, v)]
  | (k', v') :: o' =>
      if is_index k && (negb (is_index k') || (k <? k'))
      then (k, v) :: o
      else (k', v') :: obj_create k v o'
  end.

(** [obj[k] = v] *)
Definition obj_set {V : Type} (k : Z) (v : V) (o : jsobj V) : jsobj V :=
  match obj_get o k with
  | Some _ => obj_replace k v o
  | None => obj_create k v o
  end.

Definition obj_keys {V : Type} (o : jsobj V) : list Z := map fst o.

(** ** Data model *)

Record Worker : Type := mkWorker {
  w_host : string;
  w_port : Z
}.

(** The parsed body of a status response. *)
Record WorkerStatus : Type := mkStatus {
  clientCount : Z;
  httpRPM : Z;
  ioRPM : Z
}.

(** The target handed to the proxy; [d_port] is [None] when the stored
    [leastBusyPort] it was read from is [undefined]. *)
Record Destination : Type := mkDest {
  d_host : string;
  d_port : option Z
}.

(** The fields of [this] that the routing and monitoring code reads and
    writes, and the periodic timers that [setWorkers] has registered with the
    runtime (one entry per [setInterval] call, holding its period; the
    callback is always [_updateStatus]). A slot of [workerStatuses] holds
    [None] for [null]. *)
Record LoadBalancer : Type := mkLB {
  statusCheckInterval : Z;
  checkStatusTimeout : Z;
  workers : list Worker;
  destPorts : gmap Z Z;
  workerStatuses : jsobj (option WorkerStatus);
  leastBusyPort : option Z;
  timers : list Z
}.

Definition set_leastBusyPort (p : option Z) (self : LoadBalancer) : LoadBalancer :=
  mkLB (statusCheckInterval self) (checkStatusTimeout self) (workers self)
       (destPorts self) (workerStatuses self) p (timers self).

Definition set_workerStatus (k : Z) (s : option WorkerStatus)
    (self : LoadBalancer) : LoadBalancer :=
  mkLB (statusCheckInterval self) (checkStatusTimeout self) (workers self)
       (destPorts self) (obj_set k s (workerStatuses self))
       (leastBusyPort self) (timers self).

(** ** [_randomPort] (index.js 158-161) *)

(** [Math.floor(random * len)], with the exact product. The code rounds the
    product to a double before it floors it: the two indices agree when the
    exact product keeps clear of the next integer ([draws_inside]), and for a
    product just below an integer the code can select the next index where
    this function selects the one before. Either index is below [len]. *)
Definition random_index (random : Q) (len : nat) : Z :=
  Qfloor (Qmult random (inject_Z (Z.of_nat len))).

Definition _randomPort (self : LoadBalancer) (random : Q) : completion Z :=
  let rand := random_index random (length (workers self)) in
  match array_get (workers self) rand with
  | Some w => Normal (w_port w)
  | None => TypeError
  end.

(** ** [calculateLeastBusyPort] (index.js 163-190) *)

(** The sum computed by one iteration for the slot value [status]. *)
Definition business (status : option WorkerStatus) : number :=
  let '(clientCount, httpRPM, ioRPM) :=
    match status with
    | Some s => (Fin (clientCount s), Fin (httpRPM s), Fin (ioRPM s))
    | None => (Infinity, Infinity, Infinity)
    end in
  num_add (num_add httpRPM ioRPM) clientCount.

(** One iteration of the [for (var i in this.workerStatuses)] loop on the
    local variables [(minBusiness, leastBusyPort)]. *)
Definition least_busy_iter (acc : number * option Z)
    (entry : Z * option WorkerStatus) : number * option Z :=
  let '(minBusiness, leastBusyPort) := acc in
  let '(i, status) := entry in
  if num_lt (business status) minBusiness
  then (business status, Some i)
  else (minBusiness, leastBusyPort).

Definition least_busy_loop (statuses : jsobj (option WorkerStatus))
  : number * option Z :=
  foldl least_busy_iter (Infinity, None) statuses.

Definition calculateLeastBusyPort (self : LoadBalancer) (random : Q)
  : completion LoadBalancer :=
  let '(minBusiness, leastBusyPort) := least_busy_loop (workerStatuses self) in
  if is_Infinity minBusiness
  then rand ← _randomPort self random;
       Normal (set_leastBusyPort (Some rand) self)
  else Normal (set_leastBusyPort leastBusyPort self).

(** ** [setWorkers] (index.js 146-156) and the constructor (index.js 9-79) *)

Definition setWorkers (workers : list Worker) (self : LoadBalancer)
  : LoadBalancer :=
  let destPorts :=
    foldl (fun dp w => <[w_port w := 1]> dp) (∅ : gmap Z Z) workers in
  mkLB (statusCheckInterval self) (checkStatusTimeout self) workers destPorts
       (workerStatuses self) (leastBusyPort self)
       (timers self ++ [statusCheckInterval self]).

Record Options : Type := mkOptions {
  opt_statusCheckInterval : option Z;
  opt_checkStatusTimeout : option Z;
  opt_workers : list Worker
}.

(** [x || d] for an optional number [x]: [undefined] and [0] are falsy. *)
Definition num_or (x : option Z) (d : Z) : Z :=
  match x with
  | Some v => if v =? 0 then d else v
  | None => d
  end.

(** [new LoadBalancer(options)]: [setWorkers] runs first, then
    [workerStatuses] is set to [{}] and [leastBusyPort] to a random port. *)
Definition LoadBalancer_new (options : Options) (random : Q)
  : completion LoadBalancer :=
  let self0 :=
    mkLB (num_or (opt_statusCheckInterval options) 5000)
         (num_or (opt_checkStatusTimeout options) 10000)
         [] ∅ [] None [] in
  let self1 := setWorkers (opt_workers options) self0 in
  let self2 :=
    mkLB (statusCheckInterval self1) (checkStatusTimeout self1)
         (workers self1) (destPorts self1) [] (leastBusyPort self1)
         (timers self1) in
  rand ← _randomPort self2 random;
  Normal (set_leastBusyPort (Some rand) self2).

(** ** The fault handler of [_errorDomain] (index.js 12-17) *)

Record Fault : Type := mkFault {
  message : option string
}.

(** Truthiness of a property that is a string or [undefined]. *)
Definition truthy (s : option string) : bool :=
  match s with
  | Some v => negb (String.eqb v EmptyString)
  | None => false
  end.

(** [msg != lit] *)
Definition str_neq (msg : option string) (lit : string) : bool :=
  match msg with
  | Some v => negb (String.eqb v lit)
  | None => true
  end.

(** The list of ['error'] events that the handler emits on [self]. *)
Definition _errorDomain_on_error (err : Fault) : list Fault :=
  if negb (truthy (message err))
     || (str_neq (message err) "read ECONNRESET"
         && str_neq (message err) "socket hang up")
  then [err]
  else [].

(** ** [parseInt] and the two regular expressions *)

Definition code (c : ascii) : Z := Z.of_N (N_of_ascii c).

Definition in_range (lo hi : Z) (c : ascii) : bool :=
  (lo <=? code c) && (code c <=? hi).

(** [[A-Za-z0-9]] *)
Definition is_alnum (c : ascii) : bool :=
  in_range 65 90 c || in_range 97 122 c || in_range 48 57 c.

(** White space that [parseInt] skips, among the code units below 256. *)
Definition is_white_space (c : ascii) : bool :=
  in_range 9 13 c || (code c =? 32) || (code c =? 160).

Fixpoint trim_left (s : list ascii) : list ascii :=
  match s with
  | c :: s' => if is_white_space c then trim_left s' else s
  | [] => []
  end.

(** The value of a character as a digit, in radices up to 36. *)
Definition digit_value (c : ascii) : option Z :=
  if in_range 48 57 c then Some (code c - 48)
  else if in_range 97 122 c then Some (code c - 87)
  else if in_range 65 90 c then Some (code c - 55)
  else None.

(** The longest prefix of radix-[R] digits; [acc] is [None] until a digit has
    been read. *)
Fixpoint parse_digits (R : Z) (s : list ascii) (acc : option Z) : option Z :=
  match s with
  | c :: s' =>
      match digit_value c with
      | Some d =>
          if d <? R then parse_digits R s' (Some (R * default 0 acc + d))
          else acc
      | None => acc
      end
  | [] => acc
  end.

(** [parseInt(str)] with no radix argument; [None] is [NaN]. The value is
    the mathematical integer that the digits denote. The code holds the
    double nearest to it, which is that integer up to [2^53] in magnitude,
    is zero exactly when the integer is, and is [NaN] exactly when no digit
    is read. *)
Definition parseInt (str : string) : option Z :=
  let S0 := trim_left (list_ascii_of_string str) in
  let '(sign, S1) :=
    match S0 with
    | "-"%char :: t => (-1, t)
    | "+"%char :: t => (1, t)
    | _ => (1, S0)
    end in
  let '(R, S2) :=
    match S1 with
    | "0"%char :: "x"%char :: t => (16, t)
    | "0"%char :: "X"%char :: t => (16, t)
    | _ => (10, S1)
    end in
  match parse_digits R S2 None with
  | Some n => Some (sign * n)
  | None => None
  end.

(** [n || fallback] for the result of [parseInt]: [NaN] and [0] are falsy. *)
Definition port_or (n : option Z) (fallback : option Z) : option Z :=
  match n with
  | Some v => if v =? 0 then fallback else Some v
  | None => fallback
  end.

(** [s] with the prefix [p] removed, when [s] starts with [p]. *)
Fixpoint strip_prefix (p s : list ascii) : option (list ascii) :=
  match p, s with
  | [], _ => Some s
  | a :: p', b :: s' => if Ascii.eqb a b then strip_prefix p' s' else None
  | _ :: _, [] => None
  end.

(** The longest prefix without [stop]. *)
Fixpoint take_until (stop : ascii) (s : list ascii) : list ascii :=
  match s with
  | c :: s' => if Ascii.eqb c stop then [] else c :: take_until stop s'
  | [] => []
  end.

(** A segment without [d] followed by [d], at the head of [s]: the segment
    and the text after the delimiter. *)
Fixpoint split_at (d : ascii) (s : list ascii)
  : option (list ascii * list ascii) :=
  match s with
  | c :: s' =>
      if Ascii.eqb c d then Some ([], s')
      else '(seg, rest) ← split_at d s'; Some (c :: seg, rest)
  | [] => None
  end.

(** [_sidRegex]: a character that is not alphanumeric, or the start of the
    subject; an optional [s]; the literal [sid=]; then capture group 2, the
    characters up to the next [;]. The functions return capture group 2. *)

(** The literal [sid=] and capture group 2 at the head of [s]. *)
Definition sid_literal (s : list ascii) : option (list ascii) :=
  rest ← strip_prefix (list_ascii_of_string "sid=") s;
  Some (take_until ";"%char rest).

(** The optional [s], then [sid_literal]: the regular expression tries the
    optional character first. *)
Definition sid_tail (s : list ascii) : option (list ascii) :=
  match (match s with
         | "s"%char :: s' => sid_literal s'
         | _ => None
         end) with
  | Some m => Some m
  | None => sid_literal s
  end.

(** A match that starts at the head of [s]; [at_start] says that the head of
    [s] is the start of the subject. *)
Definition sid_match_here (at_start : bool) (s : list ascii)
  : option (list ascii) :=
  match (match s with
         | c :: s' => if negb (is_alnum c) then sid_tail s' else None
         | [] => None
         end) with
  | Some m => Some m
  | None => if at_start then sid_tail s else None
  end.

(** The leftmost match in [s]. *)
Fixpoint sid_search (at_start : bool) (s : list ascii)
  : option (list ascii) :=
  match sid_match_here at_start s with
  | Some m => Some m
  | None =>
      match s with
      | _ :: s' => sid_search false s'
      | [] => None
      end
  end.

(** [str.match(this._sidRegex)]: capture group 2 of the match. *)
Definition match_sidRegex (str : string) : option string :=
  string_of_list_ascii <$> sid_search true (list_ascii_of_string str).

(** [str.match(this._destRegex)]: three segments without [_], each followed
    by [_], at the start of the subject; the result holds the three capture
    groups. *)
Definition match_destRegex (str : string) : option (string * string * string) :=
  '(g1, r1) ← split_at "_"%char (list_ascii_of_string str);
  '(g2, r2) ← split_at "_"%char r1;
  '(g3, _) ← split_at "_"%char r2;
  Some (string_of_list_ascii g1, string_of_list_ascii g2,
        string_of_list_ascii g3).

(** ** [_parseDest] (index.js 249-285) and the two dispatchers (109-144) *)

Record Headers : Type := mkHeaders {
  h_host : option string;
  h_cookie : option string
}.

Record Request : Type := mkRequest {
  req_headers : option Headers;
  req_url : string
}.

(** The call that a dispatcher makes on [this._proxy], with its target. *)
Inductive ProxyCall : Type :=
| proxy_web (target : Destination)
| proxy_ws (target : Destination).

Definition call_target (c : ProxyCall) : Destination :=
  match c with
  | proxy_web t => t
  | proxy_ws t => t
  end.

(** [s || ''] *)
Definition str_or_empty (s : option string) : string :=
  if truthy s then default EmptyString s else EmptyString.

(** A stand-in for [url.parse(u).query] used in examples: the text between
    the first [?] and the first [#] after it. *)
Definition query_of_url (u : string) : option string :=
  '(_, after) ← split_at "?"%char (list_ascii_of_string u);
  Some (string_of_list_ascii (take_until "#"%char after)).

Section Dispatch.

(** [url.parse(u).query] of Node's [url] module: the query string of [u],
    or [None] for [null]. *)
Variable url_parse_query : string -> option string.

Definition _parseDest (self : LoadBalancer) (req : Request)
  : option Destination :=
  match req_headers req with
  | None => None
  | Some headers =>
      if negb (truthy (h_host headers)) then None
      else
        let query := str_or_empty (url_parse_query (req_url req)) in
        let cookie := str_or_empty (h_cookie headers) in
        if negb (truthy (Some query)) && negb (truthy (Some cookie))
        then None
        else
          let matches :=
            match match_sidRegex query with
            | Some m => Some m
            | None => match_sidRegex cookie
            end in
          match matches with
          | None => None
          | Some routString =>
              match match_destRegex routString with
              | None => None
              | Some (_, segment2, _) =>
                  Some (mkDest "localhost"
                          (port_or (parseInt segment2) (leastBusyPort self)))
              end
          end
  end.

(** [this.destPorts[port] == null] *)
Definition dest_unknown (self : LoadBalancer) (port : option Z) : bool :=
  match port with
  | Some p => bool_decide (destPorts self !! p = None)
  | None => true
  end.

Definition _proxyHTTP (self : LoadBalancer) (req : Request) (random : Q)
  : completion ProxyCall :=
  let dest := _parseDest self req in
  match dest with
  | Some dest =>
      dest' ← (if dest_unknown self (d_port dest)
               then rand ← _randomPort self random;
                    Normal (mkDest (d_host dest) (Some rand))
               else Normal dest);
      Normal (proxy_web dest')
  | None => Normal (proxy_web (mkDest "localhost" (leastBusyPort self)))
  end.

Definition _proxyWebSocket (self : LoadBalancer) (req : Request) (random : Q)
  : completion ProxyCall :=
  let dest := _parseDest self req in
  match dest with
  | Some dest =>
      dest' ← (if dest_unknown self (d_port dest)
               then rand ← _randomPort self random;
                    Normal (mkDest (d_host dest) (Some rand))
               else Normal dest);
      Normal (proxy_ws dest')
  | None => Normal (proxy_ws (mkDest "localhost" (leastBusyPort self)))
  end.

End Dispatch.

(** ** [_updateStatus] (index.js 192-247): one polling cycle *)

(** The closure variables of one call of [_updateStatus] and the requests it
    has in flight (by worker port). [aggregations] counts the calls of
    [calculateLeastBusyPort] that the cycle has made. *)
Record Cycle : Type := mkCycle {
  statusesRead : Z;
  workerCount : Z;
  inFlight : list Z;
  aggregations : nat
}.

(** The call itself: it issues one request per worker and changes nothing in
    the balancer. *)
Definition _updateStatus (self : LoadBalancer) : Cycle :=
  mkCycle 0 (Z.of_nat (length (workers self))) (map w_port (workers self)) 0.

(** What the ['end'] handler sees. The chunks pushed by the ['data'] handler
    are strings (the response has [setEncoding('utf8')]), and
    [Buffer.concat(buffers)] either throws on them or yields the body: an
    empty body, a body on which [JSON.parse] throws, or a body that parses to
    a status. Which lists of chunks make [Buffer.concat] throw is a matter of
    the runtime: every list that is not empty on current versions of Node,
    the lists of two or more chunks on Node 0.10. *)
Inductive PollBody : Type :=
| EmptyBody
| MalformedBody
| StatusBody (s : WorkerStatus)
| UnreadableBody.

(** [Buffer.concat(buffers)] throws. *)
Definition concat_throws (b : PollBody) : bool :=
  match b with
  | UnreadableBody => true
  | _ => false
  end.

(** The value that the handler stores in the slot for a body that it can
    read. *)
Definition status_of_body (b : PollBody) : option WorkerStatus :=
  match b with
  | StatusBody s => Some s
  | _ => None
  end.

Fixpoint remove_first (p : Z) (l : list Z) : list Z :=
  match l with
  | [] => []
  | q :: l' => if q =? p then l' else q :: remove_first p l'
  end.

(** The ['end'] handler of the response of the worker at [port]. When
    [Buffer.concat] throws, the handler stops before it writes the slot and
    before it counts the response. A [TypeError] of [calculateLeastBusyPort]
    leaves [leastBusyPort] as it was. Either exception goes to the error
    domain. *)
Definition on_end (port : Z) (body : PollBody) (random : Q)
    (self : LoadBalancer) (cyc : Cycle) : LoadBalancer * Cycle :=
  let pending := remove_first port (inFlight cyc) in
  if concat_throws body
  then (self, mkCycle (statusesRead cyc) (workerCount cyc) pending
                      (aggregations cyc))
  else
    let self1 := set_workerStatus port (status_of_body body) self in
    let read := statusesRead cyc + 1 in
    if read >=? workerCount cyc
    then
      let self2 :=
        match calculateLeastBusyPort self1 random with
        | Normal s => s
        | TypeError => self1
        end in
      (self2, mkCycle read (workerCount cyc) pending (S (aggregations cyc)))
    else (self1, mkCycle read (workerCount cyc) pending (aggregations cyc)).

(** The ['timeout'] handler of the socket of the request to [port], for a
    request that has had no response yet: it calls [req.abort()] and nothing
    else, so the response callback and its ['end'] handler never run for this
    request. *)
Definition on_timeout (port : Z) (self : LoadBalancer) (cyc : Cycle)
  : LoadBalancer * Cycle :=
  (self, mkCycle (statusesRead cyc) (workerCount cyc)
                 (remove_first port (inFlight cyc)) (aggregations cyc)).

(** ** The balancer as a transition system *)

Record System : Type := mkSystem {
  sys_lb : LoadBalancer;
  sys_cycles : list Cycle
}.

Inductive Event : Type :=
| EvSetWorkers (ws : list Worker)
| EvTimer
| EvEnd (c : nat) (port : Z) (body : PollBody) (random : Q)
| EvTimeout (c : nat) (port : Z)
| EvCalculate (random : Q)
| EvRequest (upgrade : bool) (req : Request) (random : Q).

Definition valid_random (random : Q) : Prop :=
  Qle 0 random /\ Qlt random 1.

(** When the runtime can deliver the event. *)
Definition enabled (e : Event) (s : System) : Prop :=
  match e with
  | EvSetWorkers _ => True
  | EvTimer => timers (sys_lb s) <> []
  | EvEnd c port _ random =>
      valid_random random /\
      exists cyc, sys_cycles s !! c = Some cyc /\ port ∈ inFlight cyc
  | EvTimeout c port =>
      exists cyc, sys_cycles s !! c = Some cyc /\ port ∈ inFlight cyc
  | EvCalculate random => valid_random random
  | EvRequest _ _ random => valid_random random
  end.

Definition step (e : Event) (s : System) : System :=
  match e with
  | EvSetWorkers ws => mkSystem (setWorkers ws (sys_lb s)) (sys_cycles s)
  | EvTimer => mkSystem (sys_lb s) (sys_cycles s ++ [_updateStatus (sys_lb s)])
  | EvEnd c port body random =>
      match sys_cycles s !! c with
      | Some cyc =>
          let '(lb, cyc') := on_end port body random (sys_lb s) cyc in
          mkSystem lb (<[c := cyc']> (sys_cycles s))
      | None => s
      end
  | EvTimeout c port =>
      match sys_cycles s !! c with
      | Some cyc =>
          let '(lb, cyc') := on_timeout port (sys_lb s) cyc in
          mkSystem lb (<[c := cyc']> (sys_cycles s))
      | None => s
      end
  | EvCalculate random =>
      match calculateLeastBusyPort (sys_lb s) random with
      | Normal lb => mkSystem lb (sys_cycles s)
      | TypeError => s
      end
  | EvRequest _ _ _ => s
  end.

Definition event_ports (e : Event) : list Z :=
  match e with
  | EvSetWorkers ws => map w_port ws
  | _ => []
  end.

(** [reachable pick configured s]: [s] is reached from a constructed balancer
    whose initial random pick was [pick], and [configured] lists the ports of
    every worker list that has been configured on the way. *)
Inductive reachable : Z -> list Z -> System -> Prop :=
| reach_new (options : Options) (random : Q) (lb : LoadBalancer) (pick : Z) :
    valid_random random ->
    LoadBalancer_new options random = Normal lb ->
    leastBusyPort lb = Some pick ->
    reachable pick (map w_port (opt_workers options)) (mkSystem lb [])
| reach_step (pick : Z) (configured : list Z) (s : System) (e : Event) :
    reachable pick configured s ->
    enabled e s ->
    reachable pick (configured ++ event_ports e) (step e s).

(** ** The middleware chains (index.js 19-24, 83-107) *)

(** What a handler does with the callback it is given: it calls it without
    an error, after any change it makes to the request; it calls it with an
    error; or it never calls it. *)
Inductive Verdict : Type :=
| Next (req : Request)
| Veto (err : Fault)
| Silent.

Definition Middleware : Type := Request -> Verdict.

(** [this._middleware]: the chain of each of the two kinds. *)
Record Middlewares : Type := mkMiddlewares {
  mw_request : list Middleware;
  mw_upgrade : list Middleware
}.

Definition MIDDLEWARE_REQUEST : string := "request".
Definition MIDDLEWARE_UPGRADE : string := "upgrade".

(** [this._middleware[type].push(middleware)]: for a [type] that names no
    chain, [push] is read from a value that has none. *)
Definition addMiddleware (type : string) (middleware : Middleware)
    (m : Middlewares) : completion Middlewares :=
  if String.eqb type MIDDLEWARE_REQUEST
  then Normal (mkMiddlewares (mw_request m ++ [middleware]) (mw_upgrade m))
  else if String.eqb type MIDDLEWARE_UPGRADE
  then Normal (mkMiddlewares (mw_request m) (mw_upgrade m ++ [middleware]))
  else TypeError.

(** [async.applyEachSeries(fns, req, ..., callback)]: the handlers are called
    one after the other, each when the one before has called back without an
    error; the result is what [callback] receives, with the number of
    handlers that were called. *)
Fixpoint applyEachSeries (fns : list Middleware) (req : Request)
  : nat * Verdict :=
  match fns with
  | [] => (0%nat, Next req)
  | f :: fns' =>
      match f req with
      | Next req' =>
          let '(n, v) := applyEachSeries fns' req' in (S n, v)
      | Veto err => (1%nat, Veto err)
      | Silent => (1%nat, Silent)
      end
  end.

(** What becomes of an exchange: the dispatcher is called, the error domain
    is given the error of a handler and emits the listed events, or nothing
    happens because a handler has not called back. *)
Inductive Handled : Type :=
| Dispatched (c : completion ProxyCall)
| Reported (events : list Fault)
| Pending.

Section Pipeline.

Variable url_parse_query : string -> option string.

Definition _handleRequest (m : Middlewares) (self : LoadBalancer)
    (req : Request) (random : Q) : Handled :=
  match (applyEachSeries (mw_request m) req).2 with
  | Next req' => Dispatched (_proxyHTTP url_parse_query self req' random)
  | Veto err => Reported (_errorDomain_on_error err)
  | Silent => Pending
  end.

Definition _handleUpgrade (m : Middlewares) (self : LoadBalancer)
    (req : Request) (random : Q) : Handled :=
  match (applyEachSeries (mw_upgrade m) req).2 with
  | Next req' => Dispatched (_proxyWebSocket url_parse_query self req' random)
  | Veto err => Reported (_errorDomain_on_error err)
  | Silent => Pending
  end.

End Pipeline.

(** ** Runs of the transition system *)

Fixpoint run (evs : list Event) (s : System) : System :=
  match evs with
  | [] => s
  | e :: evs' => run evs' (step e s)
  end.

(** Every event of [evs] is enabled when its turn comes. *)
Fixpoint run_enabled (evs : list Event) (s : System) : Prop :=
  match evs with
  | [] => True
  | e :: evs' => enabled e s /\ run_enabled evs' (step e s)
  end.

(** What holds of every polling cycle: completions and requests in flight
    never exceed the workers polled, and the cycle has aggregated once if
    all its responses have ended and not at all otherwise. *)
Definition cycle_ok (cyc : Cycle) : Prop :=
  0 <= statusesRead cyc /\
  statusesRead cyc + Z.of_nat (length (inFlight cyc)) <= workerCount cyc /\
  aggregations cyc =
    if (0 <? workerCount cyc) && (statusesRead cyc =? workerCount cyc)
    then 1%nat else 0%nat.

(** A cycle that has lost a request to a timeout. *)
Definition cycle_starved (cyc : Cycle) : Prop :=
  statusesRead cyc + Z.of_nat (length (inFlight cyc)) < workerCount cyc.

(** What holds of the timers of every reachable balancer. *)
Definition timers_inv (self : LoadBalancer) : Prop :=
  timers self <> [] /\
  Forall (fun t => t = statusCheckInterval self) (timers self) /\
  statusCheckInterval self <> 0.

(** ** Decimal digit strings *)

Definition digit_char (d : Z) : ascii := ascii_of_N (Z.to_N (48 + d)).

Definition is_digit (d : Z) : Prop := 0 <= d <= 9.

(** The number that the digits [ds] denote in base ten. *)
Definition decimal_value (ds : list Z) : Z :=
  foldl (fun acc d => 10 * acc + d) 0 ds.

#[global] Instance WorkerStatus_eq_dec : EqDecision WorkerStatus.
Proof. solve_decision. Defined.

(** ** The range in which the integer arithmetic is that of the code *)

(** A status whose fields are integers of magnitude at most [2^51]: the two
    additions of [calculateLeastBusyPort] are then exact in the double
    arithmetic of the code, and [business] is the score that the code
    computes. *)
Definition safe_status (s : WorkerStatus) : Prop :=
  Z.abs (clientCount s) <= 2 ^ 51 /\
  Z.abs (httpRPM s) <= 2 ^ 51 /\
  Z.abs (ioRPM s) <= 2 ^ 51.

(** Slots whose statuses are safe and whose keys are integers of magnitude
    at most [2^53]: [parseInt(i)] in the loop of [calculateLeastBusyPort] is
    then the port under which the slot was written. *)
Definition safe_slots (o : jsobj (option WorkerStatus)) : Prop :=
  forall k status,
    (k, status) ∈ o ->
    Z.abs k <= 2 ^ 53 /\ forall s, status = Some s -> safe_status s.

(** For a list of fewer than [2^32] elements the code's product
    [Math.random() * length], a double, differs from the exact product by
    less than [draw_margin]. *)
Definition draw_margin : Q := 1 # 1048576.

(** The exact product [random * len] lies between [k] and [k + 1], at least
    [draw_margin] below [k + 1]: the code and [random_index] then both select
    the index [k]. *)
Definition draws_inside (random : Q) (len k : nat) : Prop :=
  Qle (inject_Z (Z.of_nat k)) (Qmult random (inject_Z (Z.of_nat len))) /\
  Qle (Qmult random (inject_Z (Z.of_nat len)))
      (Qminus (inject_Z (Z.of_nat k + 1)) draw_margin).

(** ** Derived notions used in the statements *)

(** The set of known worker ports: the keys of [destPorts]. *)
Definition knownPorts (self : LoadBalancer) : gset Z := dom (destPorts self).

(** [destPorts] holds exactly the ports of [workers], as [setWorkers] leaves
    them. *)
Definition pool_consistent (self : LoadBalancer) : Prop :=
  forall p, p ∈ knownPorts self <-> p ∈ map w_port (workers self).

(** The value of [routString] in [_parseDest]: the session token found in
    the query string or else in the cookie; [None] where [_parseDest] has
    returned [null] before reaching it. *)
Definition routString (url_parse_query : string -> option string)
    (req : Request) : option string :=
  match req_headers req with
  | None => None
  | Some headers =>
      if negb (truthy (h_host headers)) then None
      else
        let query := str_or_empty (url_parse_query (req_url req)) in
        let cookie := str_or_empty (h_cookie headers) in
        if negb (truthy (Some query)) && negb (truthy (Some cookie))
        then None
        else
          match match_sidRegex query with
          | Some m => Some m
          | None => match_sidRegex cookie
          end
  end.

(** The keys of [o] are array indices in ascending order: then [for-in]
    visits the slots by ascending port, whatever the order of the writes. *)
Definition enum_ascending {V : Type} (o : jsobj V) : Prop :=
  StronglySorted Z.lt (obj_keys o) /\
  Forall (fun k => is_index k = true) (obj_keys o).

(** What holds of every reachable system, relative to the ports configured
    so far. *)
Definition configured_inv (configured : list Z) (s : System) : Prop :=
  pool_consistent (sys_lb s) /\
  (forall p, p ∈ map w_port (workers (sys_lb s)) -> p ∈ configured) /\
  (forall p, p ∈ obj_keys (workerStatuses (sys_lb s)) -> p ∈ configured) /\
  (forall cyc p, cyc ∈ sys_cycles s -> p ∈ inFlight cyc -> p ∈ configured) /\
  (exists p, leastBusyPort (sys_lb s) = Some p /\ p ∈ configured).

(** ** Concrete balancers and requests used in examples *)


Definition worker_at (p : Z) : Worker := mkWorker "localhost" p.


(** A balancer none of whose workers has answered yet. *)
Definition silent_balancer : LoadBalancer :=
  mkLB 5000 10000 [worker_at 8081; worker_at 8082] ∅
       [(8081, None)] (Some 8081) [5000].

Definition two_workers : list Worker := [worker_at 8081; worker_at 8082].

(** The balancer that [setWorkers] builds from [two_workers], with
    [leastBusyPort] set to [lbp]. *)
Definition two_worker_balancer (lbp : Z) : LoadBalancer :=
  set_leastBusyPort (Some lbp)
    (setWorkers two_workers (mkLB 5000 10000 [] ∅ [] None [])).

(** A balancer whose worker list is empty. *)
Definition empty_balancer : LoadBalancer :=
  setWorkers [] (mkLB 5000 10000 [] ∅ [] None []).

Definition request_with (url : string) (cookie : option string) : Request :=
  mkRequest (Some (mkHeaders (Some "balancer.example") cookie)) url.

(** A run: the balancer of [two_workers] is constructed with the pick 8081,
    a polling cycle starts, 8081 reports load and 8082 reports none, and the
    pool is then replaced by the single worker 9000. *)
Definition polled_system : System :=
  step (EvEnd 0 8082 (StatusBody (mkStatus 0 0 0)) 0)
    (step (EvEnd 0 8081 (StatusBody (mkStatus 5 5 5)) 0)
       (step EvTimer (mkSystem (two_worker_balancer 8081) []))).

Definition reconfigured_system : System :=
  step (EvSetWorkers [worker_at 9000]) polled_system.

(** A run with two polling cycles. The balancer of [two_workers] is
    constructed with the pick 8082; in the first cycle 8081 reports no load
    and 8082 reports load; in the second cycle the request to 8081 times out
    and 8082 reports little load. *)
Definition first_cycle_system : System :=
  step (EvEnd 0 8082 (StatusBody (mkStatus 5 5 5)) 0)
    (step (EvEnd 0 8081 (StatusBody (mkStatus 0 0 0)) 0)
       (step EvTimer (mkSystem (two_worker_balancer 8082) []))).

Definition timed_out_system : System :=
  step (EvEnd 1 8082 (StatusBody (mkStatus 1 1 1)) 0)
    (step (EvTimeout 1 8081)
       (step EvTimer first_cycle_system)).

(** Handlers used in examples: one that continues, one that replaces the
    URL of the request and continues, one that fails with a message. *)
Definition allow : Middleware := fun req => Next req.

Definition set_url (url : string) : Middleware :=
  fun req => Next (mkRequest (req_headers req) url).

Definition deny (msg : string) : Middleware :=
  fun _ => Veto (mkFault (Some msg)).

Definition guarded_chains : Middlewares :=
  mkMiddlewares [allow; deny "denied"; set_url "/?sid=AAA_8082_ZZZ_"]
                [set_url "/?sid=AAA_8082_ZZZ_"].

(** * Properties *)

(** ** The random draw *)

Lemma Qfloor_spec (x : Q) (k : Z) :
  Qfloor x = k <-> Qle (inject_Z k) x /\ Qlt x (inject_Z (k + 1)).
Proof.
  split.
  - intros <-. split; [apply Qfloor_le | apply Qlt_floor].
  - intros [Hlo Hhi].
    pose proof (Qfloor_resp_le _ _ Hlo) as H1. rewrite Qfloor_Z in H1.
    pose proof (Qfloor_le x) as H2.
    assert (Qlt (inject_Z (Qfloor x)) (inject_Z (k + 1))) as H3
      by (eapply Qle_lt_trans; eassumption).
    rewrite <- Zlt_Qlt in H3. lia.
Qed.

Lemma random_index_bounds (random : Q) (len : nat) :
  valid_random random -> (0 < len)%nat ->
  0 <= random_index random len < Z.of_nat len.
Proof.
  intros [Hlo Hhi] Hlen. unfold random_index.
  set (n := inject_Z (Z.of_nat len)).
  assert (Qlt 0 n) as Hn by (unfold n; rewrite <- (Zlt_Qlt 0); lia).
  split.
  - assert (Qle (inject_Z 0) (Qmult random n)) as H.
    { change (inject_Z 0) with 0%Q. apply Qmult_le_0_compat; [done|].
      by apply Qlt_le_weak. }
    apply Qfloor_resp_le in H. by rewrite Qfloor_Z in H.
  - assert (Qlt (Qmult random n) n) as H.
    { rewrite <- (Qmult_1_l n) at 2. by apply Qmult_lt_compat_r. }
    pose proof (Qfloor_le (Qmult random n)) as H2.
    assert (Qlt (inject_Z (Qfloor (Qmult random n))) n) as H3
      by (eapply Qle_lt_trans; eassumption).
    unfold n in H3. by rewrite <- Zlt_Qlt in H3.
Qed.


Lemma array_get_Some {A : Type} (arr : list A) (i : Z) :
  0 <= i < Z.of_nat (length arr) -> is_Some (array_get arr i).
Proof.
  intros [Hlo Hhi]. unfold array_get.
  destruct (Z.ltb_spec i 0) as [?|_]; [lia|].
  apply lookup_lt_is_Some. lia.
Qed.

Lemma array_get_elem_of {A : Type} (arr : list A) (i : Z) (x : A) :
  array_get arr i = Some x -> x ∈ arr.
Proof.
  unfold array_get. destruct (i <? 0); [done|].
  intros H. by eapply list_elem_of_lookup_2.
Qed.

Lemma _randomPort_Normal (self : LoadBalancer) (random : Q) :
  workers self <> [] -> valid_random random ->
  exists w,
    array_get (workers self) (random_index random (length (workers self)))
      = Some w /\
    w ∈ workers self /\
    _randomPort self random = Normal (w_port w).
Proof.
  intros Hne Hr.
  assert (0 < length (workers self))%nat as Hlen
    by (destruct (workers self); [done | simpl; lia]).
  destruct (array_get_Some (workers self)
              (random_index random (length (workers self)))) as [w Hw].
  { by apply random_index_bounds. }
  exists w. split; [done|]. split; [by eapply array_get_elem_of|].
  unfold _randomPort. by rewrite Hw.
Qed.

Lemma _randomPort_empty (self : LoadBalancer) (random : Q) :
  workers self = [] -> _randomPort self random = TypeError.
Proof.
  intros E. unfold _randomPort, array_get. rewrite E.
  destruct (_ <? 0); [done|]. by rewrite lookup_nil.
Qed.

Lemma _randomPort_port (self : LoadBalancer) (random : Q) (p : Z) :
  _randomPort self random = Normal p -> p ∈ map w_port (workers self).
Proof.
  unfold _randomPort.
  destruct (array_get _ _) as [w|] eqn:E; [|done].
  intros [= <-]. apply list_elem_of_In, in_map, list_elem_of_In.
  by eapply array_get_elem_of.
Qed.

(** ** The least-busy loop *)

Lemma num_lt_irrefl (a : number) : num_lt a a = false.
Proof. destruct a; simpl; [apply Z.ltb_irrefl | done]. Qed.

Lemma num_lt_le_trans (a b c : number) :
  num_lt a b = true -> num_lt c b = false -> num_lt a c = true.
Proof.
  destruct a, b, c; simpl; try done; rewrite ?Z.ltb_lt, ?Z.ltb_ge; lia.
Qed.

Lemma num_lt_finite (a b : number) : num_lt a b = true -> a <> Infinity.
Proof. by destruct a. Qed.

Lemma num_lt_Infinity (a : number) :
  num_lt a Infinity = false <-> a = Infinity.
Proof. destruct a; simpl; split; done. Qed.

Lemma least_busy_iter_snoc (l : jsobj (option WorkerStatus))
    (e : Z * option WorkerStatus) :
  least_busy_loop (l ++ [e]) = least_busy_iter (least_busy_loop l) e.
Proof. unfold least_busy_loop. by rewrite foldl_app. Qed.

(** What the loop leaves in its two variables: [minBusiness] is a lower bound
    of every slot; when it is finite, [leastBusyPort] is the key of the first
    slot that attains it; when it is [Infinity] no slot was ever selected. *)
Lemma least_busy_loop_spec (l : jsobj (option WorkerStatus)) :
  let '(minB, lbp) := least_busy_loop l in
  (forall e, e ∈ l -> num_lt (business e.2) minB = false) /\
  (minB = Infinity -> lbp = None) /\
  (minB <> Infinity ->
   exists l1 p s l2,
     l = l1 ++ (p, s) :: l2 /\ lbp = Some p /\ business s = minB /\
     forall e, e ∈ l1 -> num_lt minB (business e.2) = true).
Proof.
  induction l as [|e l IH] using rev_ind.
  - simpl. split; [intros e He; by apply elem_of_nil in He|].
    split; [done|]. intros H. by destruct H.
  - rewrite least_busy_iter_snoc.
    destruct (least_busy_loop l) as [minB lbp].
    destruct IH as (Hlow & Hinf & Hfin).
    destruct e as [i status]. simpl.
    destruct (num_lt (business status) minB) eqn:Hlt.
    + split; [|split].
      * intros e He. apply elem_of_app in He as [He|He].
        -- destruct (num_lt (business e.2) (business status)) eqn:E; [|done].
           pose proof (num_lt_le_trans _ _ _ E (num_lt_irrefl _)).
           assert (num_lt (business e.2) minB = true) as Hc.
           { destruct (business e.2), (business status), minB;
               simpl in *; try done.
             apply Z.ltb_lt. apply Z.ltb_lt in E, Hlt. lia. }
           rewrite (Hlow e He) in Hc. done.
        -- apply list_elem_of_singleton in He as ->. apply num_lt_irrefl.
      * intros E. rewrite E in Hlt. by destruct minB.
      * intros _. exists l, i, status, []. repeat split; [done..|].
        intros e He. eapply num_lt_le_trans; [exact Hlt | by apply Hlow].
    + split; [|split].
      * intros e He. apply elem_of_app in He as [He|He]; [by apply Hlow|].
        by apply list_elem_of_singleton in He as ->.
      * done.
      * intros Hne. destruct (Hfin Hne) as (l1 & p & s & l2 & -> & ? & ? & ?).
        exists l1, p, s, (l2 ++ [(i, status)]).
        by rewrite <- app_assoc.
Qed.

Lemma least_busy_loop_Infinity (l : jsobj (option WorkerStatus)) :
  (least_busy_loop l).1 = Infinity <->
  forall e, e ∈ l -> business e.2 = Infinity.
Proof.
  pose proof (least_busy_loop_spec l) as H.
  destruct (least_busy_loop l) as [minB lbp]. simpl.
  destruct H as (Hlow & _ & Hfin). split.
  - intros -> e He. by apply num_lt_Infinity, Hlow.
  - intros Hall. destruct minB as [m|]; [|done].
    destruct (Hfin ltac:(done)) as (l1 & p & s & l2 & -> & _ & Hs & _).
    assert (business (p, s).2 = Infinity) as Hp.
    { apply Hall, elem_of_app. right. apply list_elem_of_here. }
    simpl in Hp. by rewrite Hp in Hs.
Qed.

Lemma calculateLeastBusyPort_all_Infinity (self : LoadBalancer) (random : Q) :
  (forall e, e ∈ workerStatuses self -> business e.2 = Infinity) ->
  calculateLeastBusyPort self random =
    (rand ← _randomPort self random;
     Normal (set_leastBusyPort (Some rand) self)).
Proof.
  intros Hall. apply least_busy_loop_Infinity in Hall.
  unfold calculateLeastBusyPort.
  destruct (least_busy_loop (workerStatuses self)) as [minB lbp].
  simpl in Hall. by rewrite Hall.
Qed.

Lemma calculateLeastBusyPort_first_minimum (self : LoadBalancer) (random : Q) :
  (exists e, e ∈ workerStatuses self /\ business e.2 <> Infinity) ->
  exists l1 p s l2,
    workerStatuses self = l1 ++ (p, s) :: l2 /\
    business s <> Infinity /\
    (forall e, e ∈ l1 -> num_lt (business s) (business e.2) = true) /\
    (forall e, e ∈ l2 -> num_lt (business e.2) (business s) = false) /\
    calculateLeastBusyPort self random =
      Normal (set_leastBusyPort (Some p) self).
Proof.
  intros (e0 & He0 & Hfin0).
  pose proof (least_busy_loop_spec (workerStatuses self)) as H.
  pose proof (least_busy_loop_Infinity (workerStatuses self)) as HI.
  unfold calculateLeastBusyPort.
  destruct (least_busy_loop (workerStatuses self)) as [minB lbp].
  simpl in HI. destruct H as (Hlow & _ & Hfin).
  assert (minB <> Infinity) as Hne.
  { intros E. apply Hfin0. by apply HI. }
  destruct (Hfin Hne) as (l1 & p & s & l2 & Hl & -> & Hs & Hbefore).
  exists l1, p, s, l2. rewrite Hs. repeat split; try done.
  - intros e He. apply Hlow. rewrite Hl. apply elem_of_app. right.
    by apply list_elem_of_further.
  - by destruct minB.
Qed.

Lemma random_index_inside (random : Q) (len k : nat) :
  draws_inside random len k -> random_index random len = Z.of_nat k.
Proof.
  intros [Hlo Hhi]. unfold random_index. apply Qfloor_spec.
  split; [done|]. eapply Qle_lt_trans; [exact Hhi|].
  unfold Qminus. rewrite <- (Qplus_0_r (inject_Z (Z.of_nat k + 1))) at 2.
  apply Qplus_lt_r. reflexivity.
Qed.

Lemma _randomPort_at (self : LoadBalancer) (random : Q) (k : nat)
    (w : Worker) :
  workers self !! k = Some w ->
  random_index random (length (workers self)) = Z.of_nat k ->
  _randomPort self random = Normal (w_port w).
Proof.
  intros Hk Hidx. unfold _randomPort, array_get. rewrite Hidx.
  destruct (Z.ltb_spec (Z.of_nat k) 0); [lia|].
  by rewrite Nat2Z.id, Hk.
Qed.

Lemma _randomPort_inside (self : LoadBalancer) (random : Q) (k : nat)
    (w : Worker) :
  workers self !! k = Some w ->
  draws_inside random (length (workers self)) k ->
  _randomPort self random = Normal (w_port w).
Proof.
  intros Hk Hin. eapply _randomPort_at; [done|].
  by apply random_index_inside.
Qed.



Lemma valid_random_half : valid_random (1 # 2).
Proof. split; [discriminate | reflexivity]. Defined.

Lemma valid_random_zero : valid_random 0.
Proof. split; [discriminate | reflexivity]. Defined.



Lemma half_draws_second : draws_inside (1 # 2) 2 1.
Proof. split; discriminate. Defined.


(** ** Idempotence of the aggregation *)


Lemma calculateLeastBusyPort_finite (self : LoadBalancer) (random : Q) :
  (exists e, e ∈ workerStatuses self /\ business e.2 <> Infinity) ->
  calculateLeastBusyPort self random =
    Normal (set_leastBusyPort (least_busy_loop (workerStatuses self)).2 self).
Proof.
  intros (e0 & He0 & Hfin0).
  pose proof (least_busy_loop_Infinity (workerStatuses self)) as HI.
  unfold calculateLeastBusyPort.
  destruct (least_busy_loop (workerStatuses self)) as [minB lbp].
  simpl in *. destruct minB as [m|]; [done|].
  destruct Hfin0. by apply HI.
Qed.




(** ** Reconfiguration of the pool *)

Lemma destPorts_fold (ws : list Worker) (m : gmap Z Z) (p : Z) :
  p ∈ dom (foldl (fun dp w => <[w_port w := 1]> dp) m ws) <->
  p ∈ dom m \/ p ∈ map w_port ws.
Proof.
  revert m. induction ws as [|w ws IH]; intros m; simpl.
  - split; [by left | intros [?|H]; [done | by apply elem_of_nil in H]].
  - rewrite IH, dom_insert, elem_of_union, elem_of_singleton, elem_of_cons.
    tauto.
Qed.

Lemma setWorkers_knownPorts (ws : list Worker) (self : LoadBalancer) (p : Z) :
  p ∈ knownPorts (setWorkers ws self) <-> p ∈ map w_port ws.
Proof.
  unfold knownPorts, setWorkers. simpl. rewrite destPorts_fold, dom_empty.
  split; [intros [H|H]; [by apply elem_of_empty in H | done] | by right].
Qed.

Lemma setWorkers_consistent (ws : list Worker) (self : LoadBalancer) :
  pool_consistent (setWorkers ws self).
Proof. intros p. apply setWorkers_knownPorts. Qed.

(** C4, as the code has it. After [setWorkers] the known ports are exactly
    the ports of the new list and the new list is the worker list; one more
    periodic timer, with the current [statusCheckInterval], is registered, and
    every timer registered before is still registered. *)
Theorem setWorkers_spec (ws : list Worker) (self : LoadBalancer) :
  (forall p, p ∈ knownPorts (setWorkers ws self) <-> p ∈ map w_port ws) /\
  workers (setWorkers ws self) = ws /\
  timers (setWorkers ws self) = timers self ++ [statusCheckInterval self] /\
  length (timers (setWorkers ws self)) = S (length (timers self)) /\
  workerStatuses (setWorkers ws self) = workerStatuses self /\
  leastBusyPort (setWorkers ws self) = leastBusyPort self.
Proof.
  split; [intros p; apply setWorkers_knownPorts|].
  repeat split; simpl. rewrite length_app. simpl. lia.
Qed.

Lemma setWorkers_spec_witness :
  (8082 ∈ knownPorts (setWorkers two_workers silent_balancer) <->
   8082 ∈ map w_port two_workers) /\
  length (timers (setWorkers two_workers silent_balancer)) = 2%nat.
Proof.
  destruct (setWorkers_spec two_workers silent_balancer) as (H & _ & _ & Hl & _).
  split; [apply H | exact Hl].
Defined.

(** C4 as stated fails: a balancer is constructed with one timer; after one
    call of [setWorkers] two periodic timers are registered, the first one
    among them. *)
Lemma setWorkers_keeps_old_timer :
  exists lb,
    LoadBalancer_new (mkOptions None None two_workers) 0 = Normal lb /\
    timers lb = [5000] /\
    timers (setWorkers [worker_at 9000] lb) = [5000; 5000] /\
    length (timers (setWorkers [worker_at 9000] lb)) <> 1%nat.
Proof.
  eexists. split; [reflexivity|]. repeat split. simpl. lia.
Qed.

(** ** The fault handler *)

Lemma str_neq_spec (msg : option string) (lit : string) :
  str_neq msg lit = true <-> msg <> Some lit.
Proof.
  destruct msg as [v|]; simpl; [|done].
  destruct (String.eqb_spec v lit); simpl; split; congruence.
Qed.

(** C9. The handler emits an ['error'] event exactly when the message of the
    fault is neither of the two transient signatures; a fault with one of the
    two messages emits nothing, and any other fault, also one without a
    message, is emitted once. *)
Theorem errorDomain_spec (err : Fault) :
  (_errorDomain_on_error err = [err] <->
   message err <> Some "read ECONNRESET" /\
   message err <> Some "socket hang up") /\
  (_errorDomain_on_error err = [] <->
   message err = Some "read ECONNRESET" \/
   message err = Some "socket hang up") /\
  (message err = None -> _errorDomain_on_error err = [err]).
Proof.
  destruct err as [[m|]]; unfold _errorDomain_on_error, truthy, str_neq;
    simpl; [|intuition congruence].
  destruct (String.eqb_spec m EmptyString) as [->|He]; simpl;
    [intuition congruence|].
  destruct (String.eqb_spec m "read ECONNRESET") as [->|H1]; simpl;
    [intuition congruence|].
  destruct (String.eqb_spec m "socket hang up") as [->|H2]; simpl;
    intuition congruence.
Qed.

Lemma errorDomain_spec_witness :
  _errorDomain_on_error (mkFault (Some "socket hang up")) = [] /\
  _errorDomain_on_error (mkFault (Some "read ECONNRESET")) = [] /\
  _errorDomain_on_error (mkFault (Some "connect ECONNREFUSED")) =
    [mkFault (Some "connect ECONNREFUSED")] /\
  _errorDomain_on_error (mkFault None) = [mkFault None].
Proof.
  split; [|split; [|split]].
  - apply (errorDomain_spec (mkFault (Some "socket hang up"))). by right.
  - apply (errorDomain_spec (mkFault (Some "read ECONNRESET"))). by left.
  - destruct (errorDomain_spec (mkFault (Some "connect ECONNREFUSED")))
      as (H & _ & _).
    apply H. split; simpl; discriminate.
  - destruct (errorDomain_spec (mkFault None)) as (_ & _ & H). by apply H.
Defined.

(** ** The session destination decoder *)

Section Decoder.

Variable url_parse_query : string -> option string.

Lemma _parseDest_routString (self : LoadBalancer) (req : Request) :
  _parseDest url_parse_query self req =
    match routString url_parse_query req with
    | None => None
    | Some tok =>
        match match_destRegex tok with
        | None => None
        | Some (_, segment2, _) =>
            Some (mkDest "localhost"
                    (port_or (parseInt segment2) (leastBusyPort self)))
        end
    end.
Proof.
  unfold _parseDest, routString.
  destruct (req_headers req) as [headers|]; [|done].
  destruct (negb (truthy (h_host headers))); [done|].
  destruct (negb (truthy (Some (str_or_empty _))) && _); [done|].
  by destruct (match_sidRegex (str_or_empty (url_parse_query _))).
Qed.

(** C6, as the code has it. For a token with the three-segment prefix, the
    decoder returns [localhost] with the parsed value of segment 2 when that
    value is a non-zero integer, and with the current [leastBusyPort] when
    segment 2 does not parse or parses to zero. *)
Theorem _parseDest_port (self : LoadBalancer) (req : Request)
    (tok g1 segment2 g3 : string) :
  routString url_parse_query req = Some tok ->
  match_destRegex tok = Some (g1, segment2, g3) ->
  (forall n, parseInt segment2 = Some n -> n <> 0 ->
     _parseDest url_parse_query self req =
       Some (mkDest "localhost" (Some n))) /\
  (parseInt segment2 = None \/ parseInt segment2 = Some 0 ->
     _parseDest url_parse_query self req =
       Some (mkDest "localhost" (leastBusyPort self))).
Proof.
  intros Htok Hdest. rewrite _parseDest_routString, Htok, Hdest. split.
  - intros n -> Hn. simpl. by destruct (Z.eqb_spec n 0).
  - by intros [-> | ->].
Qed.

(** C7, as the code has it. The decoder changes no state and reads one
    field of it, [leastBusyPort]: two balancers with the same
    [leastBusyPort] decode a request alike; whether a hint is produced does
    not depend on the balancer at all; neither does the hint when segment 2
    parses to a non-zero integer; and when segment 2 does not parse or
    parses to zero, the port of the hint is the [leastBusyPort] of the
    balancer that decodes, so that two balancers return the same hint
    exactly when they have the same [leastBusyPort]. *)
Theorem _parseDest_state (self1 self2 : LoadBalancer) (req : Request) :
  (leastBusyPort self1 = leastBusyPort self2 ->
   _parseDest url_parse_query self1 req =
   _parseDest url_parse_query self2 req) /\
  (_parseDest url_parse_query self1 req = None <->
   _parseDest url_parse_query self2 req = None) /\
  (forall tok g1 segment2 g3 n,
     routString url_parse_query req = Some tok ->
     match_destRegex tok = Some (g1, segment2, g3) ->
     parseInt segment2 = Some n -> n <> 0 ->
     _parseDest url_parse_query self1 req =
     _parseDest url_parse_query self2 req) /\
  (forall tok g1 segment2 g3,
     routString url_parse_query req = Some tok ->
     match_destRegex tok = Some (g1, segment2, g3) ->
     parseInt segment2 = None \/ parseInt segment2 = Some 0 ->
     _parseDest url_parse_query self1 req =
       Some (mkDest "localhost" (leastBusyPort self1)) /\
     _parseDest url_parse_query self2 req =
       Some (mkDest "localhost" (leastBusyPort self2)) /\
     (_parseDest url_parse_query self1 req =
      _parseDest url_parse_query self2 req <->
      leastBusyPort self1 = leastBusyPort self2)).
Proof.
  rewrite !_parseDest_routString. split; [|split; [|split]].
  - by intros ->.
  - destruct (routString url_parse_query req) as [tok|]; [|done].
    by destruct (match_destRegex tok) as [[[? ?] ?]|].
  - intros tok g1 segment2 g3 n -> -> -> Hn. simpl.
    by destruct (Z.eqb_spec n 0).
  - intros tok g1 segment2 g3 -> -> Hp.
    assert (forall self,
              port_or (parseInt segment2) (leastBusyPort self) =
              leastBusyPort self) as E by by destruct Hp as [-> | ->].
    rewrite !E. split; [done|]. split; [done|]. split.
    + by intros [= ->].
    + by intros ->.
Qed.

End Decoder.

Lemma _parseDest_port_witness :
  _parseDest query_of_url (two_worker_balancer 8082)
    (request_with "/?sid=AAA_8081_ZZZ_xyz" None) =
    Some (mkDest "localhost" (Some 8081)) /\
  _parseDest query_of_url (two_worker_balancer 8082)
    (request_with "/" (Some "foo=1; ssid=BBB_notanumber_CCC_")) =
    Some (mkDest "localhost" (Some 8082)).
Proof.
  split.
  - apply (_parseDest_port query_of_url (two_worker_balancer 8082)
             (request_with "/?sid=AAA_8081_ZZZ_xyz" None)
             "AAA_8081_ZZZ_xyz" "AAA" "8081" "ZZZ");
      [reflexivity | reflexivity | reflexivity | lia].
  - apply (_parseDest_port query_of_url (two_worker_balancer 8082)
             (request_with "/" (Some "foo=1; ssid=BBB_notanumber_CCC_"))
             "BBB_notanumber_CCC_" "BBB" "notanumber" "CCC");
      [reflexivity | reflexivity | by left].
Defined.

(** C6 as stated fails: segment 2 of the token [a_0_b_] parses as the integer
    0, and the decoder returns the current [leastBusyPort], 8082, not 0. *)
Lemma _parseDest_zero_segment :
  routString query_of_url (request_with "/?sid=a_0_b_" None) = Some "a_0_b_" /\
  match_destRegex "a_0_b_" = Some ("a", "0", "b") /\
  parseInt "0" = Some 0 /\
  _parseDest query_of_url (two_worker_balancer 8082)
    (request_with "/?sid=a_0_b_" None) =
    Some (mkDest "localhost" (Some 8082)) /\
  _parseDest query_of_url (two_worker_balancer 8082)
    (request_with "/?sid=a_0_b_" None) <>
    Some (mkDest "localhost" (Some 0)).
Proof. repeat split. discriminate. Qed.

Lemma _parseDest_state_witness :
  _parseDest query_of_url (two_worker_balancer 8081)
    (request_with "/?sid=AAA_8082_ZZZ_xyz" None) =
  _parseDest query_of_url (two_worker_balancer 8082)
    (request_with "/?sid=AAA_8082_ZZZ_xyz" None) /\
  _parseDest query_of_url (two_worker_balancer 8081)
    (request_with "/" (Some "ssid=BBB_x_CCC_")) =
  _parseDest query_of_url (set_leastBusyPort (Some 8081) silent_balancer)
    (request_with "/" (Some "ssid=BBB_x_CCC_")) /\
  _parseDest query_of_url (two_worker_balancer 8082)
    (request_with "/" (Some "ssid=no-prefix")) = None /\
  _parseDest query_of_url (two_worker_balancer 8081)
    (request_with "/" (Some "ssid=BBB_x_CCC_")) =
    Some (mkDest "localhost" (Some 8081)) /\
  _parseDest query_of_url (two_worker_balancer 8082)
    (request_with "/" (Some "ssid=BBB_x_CCC_")) =
    Some (mkDest "localhost" (Some 8082)).
Proof.
  split; [|split; [|split]].
  - destruct (_parseDest_state query_of_url (two_worker_balancer 8081)
                (two_worker_balancer 8082)
                (request_with "/?sid=AAA_8082_ZZZ_xyz" None))
      as (_ & _ & H & _).
    apply (H "AAA_8082_ZZZ_xyz" "AAA" "8082" "ZZZ" 8082);
      [reflexivity | reflexivity | reflexivity | lia].
  - destruct (_parseDest_state query_of_url (two_worker_balancer 8081)
                (set_leastBusyPort (Some 8081) silent_balancer)
                (request_with "/" (Some "ssid=BBB_x_CCC_"))) as (H & _).
    apply H. reflexivity.
  - destruct (_parseDest_state query_of_url (two_worker_balancer 8081)
                (two_worker_balancer 8082)
                (request_with "/" (Some "ssid=no-prefix")))
      as (_ & H & _).
    apply H. reflexivity.
  - destruct (_parseDest_state query_of_url (two_worker_balancer 8081)
                (two_worker_balancer 8082)
                (request_with "/" (Some "ssid=BBB_x_CCC_")))
      as (_ & _ & _ & H).
    destruct (H "BBB_x_CCC_" "BBB" "x" "CCC" eq_refl eq_refl
                (or_introl eq_refl)) as (H1 & H2 & _).
    split; [exact H1 | exact H2].
Defined.

(** C7 as stated fails: two balancers that differ only in [leastBusyPort]
    decode the same request to different destinations. *)
Lemma _parseDest_reads_leastBusyPort :
  _parseDest query_of_url (two_worker_balancer 8081)
    (request_with "/" (Some "foo=1; ssid=BBB_notanumber_CCC_")) =
    Some (mkDest "localhost" (Some 8081)) /\
  _parseDest query_of_url (two_worker_balancer 8082)
    (request_with "/" (Some "foo=1; ssid=BBB_notanumber_CCC_")) =
    Some (mkDest "localhost" (Some 8082)) /\
  _parseDest query_of_url (two_worker_balancer 8081)
    (request_with "/" (Some "foo=1; ssid=BBB_notanumber_CCC_")) <>
  _parseDest query_of_url (two_worker_balancer 8082)
    (request_with "/" (Some "foo=1; ssid=BBB_notanumber_CCC_")).
Proof. repeat split. discriminate. Qed.

(** ** Destination resolution *)

Lemma dest_unknown_false (self : LoadBalancer) (port : option Z) :
  dest_unknown self port = false <->
  exists p, port = Some p /\ p ∈ knownPorts self.
Proof.
  unfold dest_unknown, knownPorts. destruct port as [p|].
  - split.
    + intros H. apply bool_decide_eq_false in H. exists p. split; [done|].
      by apply elem_of_dom, not_eq_None_Some.
    + intros (q & [= <-] & Hin). apply bool_decide_eq_false.
      by apply not_eq_None_Some, elem_of_dom.
  - split; [done | by intros (? & ? & _)].
Qed.

Lemma dest_unknown_true (self : LoadBalancer) (port : option Z) :
  dest_unknown self port = true <->
  forall p, port = Some p -> p ∉ knownPorts self.
Proof.
  pose proof (dest_unknown_false self port) as H.
  destruct (dest_unknown self port); split; try done.
  - intros _ p Hp Hin. assert (true = false) by (apply H; eauto). done.
  - intros Hall. destruct H as [H _]. destruct H as (p & Hp & Hin); [done|].
    by destruct (Hall p Hp).
Qed.

Lemma _randomPort_ignores_leastBusyPort (self : LoadBalancer)
    (lbp : option Z) (random : Q) :
  _randomPort (set_leastBusyPort lbp self) random = _randomPort self random.
Proof. done. Qed.

Lemma LoadBalancer_new_workers (options : Options) (random : Q)
    (lb : LoadBalancer) :
  LoadBalancer_new options random = Normal lb ->
  workers lb = opt_workers options /\
  workerStatuses lb = [] /\
  pool_consistent lb /\
  timers lb = [num_or (opt_statusCheckInterval options) 5000] /\
  exists p, leastBusyPort lb = Some p /\ p ∈ map w_port (opt_workers options).
Proof.
  unfold LoadBalancer_new.
  destruct (_randomPort _ random) as [p|] eqn:Hp; [|done].
  simpl. intros [= <-]. repeat split; simpl.
  - intros H. unfold knownPorts in H. simpl in H.
    apply destPorts_fold in H as [H|H]; [|done].
    rewrite dom_empty in H. by apply elem_of_empty in H.
  - intros H. unfold knownPorts. simpl. apply destPorts_fold. by right.
  - exists p. split; [done|]. by apply _randomPort_port in Hp.
Qed.

Section Dispatcher.

Variable url_parse_query : string -> option string.

(** C2. With no hint the target is [localhost] and [leastBusyPort]; a hint
    whose port is a known port is the target unchanged; a hint whose port is
    not known keeps its host and takes the port that [_randomPort] draws. The
    draw does not depend on [leastBusyPort]; for a consistent non-empty pool
    it is the known port of a configured worker, and it is the port of the
    worker at index [k] for every draw that puts [random * length] between
    [k] and [k + 1] clear of the rounding of the product, so that each worker
    is drawn on an interval of nearly the same length. [_proxyWebSocket]
    computes the same target as [_proxyHTTP]. *)
Theorem dispatch_two_tier (self : LoadBalancer) (req : Request) (random : Q) :
  (_parseDest url_parse_query self req = None ->
   _proxyHTTP url_parse_query self req random =
     Normal (proxy_web (mkDest "localhost" (leastBusyPort self))) /\
   _proxyWebSocket url_parse_query self req random =
     Normal (proxy_ws (mkDest "localhost" (leastBusyPort self)))) /\
  (forall dest p,
     _parseDest url_parse_query self req = Some dest ->
     d_port dest = Some p -> p ∈ knownPorts self ->
     _proxyHTTP url_parse_query self req random = Normal (proxy_web dest) /\
     _proxyWebSocket url_parse_query self req random =
       Normal (proxy_ws dest)) /\
  (forall dest,
     _parseDest url_parse_query self req = Some dest ->
     (forall p, d_port dest = Some p -> p ∉ knownPorts self) ->
     _proxyHTTP url_parse_query self req random =
       (rand ← _randomPort self random;
        Normal (proxy_web (mkDest (d_host dest) (Some rand)))) /\
     _proxyWebSocket url_parse_query self req random =
       (rand ← _randomPort self random;
        Normal (proxy_ws (mkDest (d_host dest) (Some rand)))) /\
     (forall lbp,
        _randomPort (set_leastBusyPort lbp self) random =
        _randomPort self random) /\
     (workers self <> [] -> valid_random random -> pool_consistent self ->
      exists w,
        w ∈ workers self /\
        w_port w ∈ knownPorts self /\
        _proxyHTTP url_parse_query self req random =
          Normal (proxy_web (mkDest (d_host dest) (Some (w_port w)))) /\
        _proxyWebSocket url_parse_query self req random =
          Normal (proxy_ws (mkDest (d_host dest) (Some (w_port w))))) /\
     (forall k w,
        workers self !! k = Some w ->
        Z.of_nat (length (workers self)) < 2 ^ 32 ->
        draws_inside random (length (workers self)) k ->
        _proxyHTTP url_parse_query self req random =
          Normal (proxy_web (mkDest (d_host dest) (Some (w_port w)))) /\
        _proxyWebSocket url_parse_query self req random =
          Normal (proxy_ws (mkDest (d_host dest) (Some (w_port w)))))) /\
  match _proxyHTTP url_parse_query self req random,
        _proxyWebSocket url_parse_query self req random with
  | Normal a, Normal b =>
      a = proxy_web (call_target a) /\ b = proxy_ws (call_target a)
  | TypeError, TypeError => True
  | _, _ => False
  end.
Proof.
  unfold _proxyHTTP, _proxyWebSocket. split; [|split; [|split]].
  - by intros ->.
  - intros dest p -> Hp Hin.
    assert (dest_unknown self (d_port dest) = false) as ->; [|done].
    apply dest_unknown_false. eauto.
  - intros dest -> Hout.
    assert (dest_unknown self (d_port dest) = true) as ->
      by by apply dest_unknown_true.
    split; [by destruct (_randomPort self random)|].
    split; [by destruct (_randomPort self random)|].
    split; [done|]. split.
    + intros Hne Hr Hc.
      destruct (_randomPort_Normal self random Hne Hr) as (w & Hw & Hin & ->).
      exists w. repeat split; try done.
      apply Hc, list_elem_of_In, in_map, list_elem_of_In, Hin.
    + intros k w Hk _ Hin.
      by rewrite (_randomPort_inside self random k w Hk Hin).
  - destruct (_parseDest url_parse_query self req) as [dest|]; [|done].
    destruct (dest_unknown self (d_port dest)); [|done].
    by destruct (_randomPort self random).
Qed.

(** C10. With a non-empty worker list and a draw in the unit interval, the
    index of [_randomPort] is in bounds and it returns the port of a
    configured worker, so that construction, aggregation (also with every
    status absent) and both dispatchers return normally; with an empty worker
    list [_randomPort] faults, and so do construction and the aggregation of a
    snapshot without any known status. *)
Theorem nonempty_pool_precondition (self : LoadBalancer) (options : Options)
    (req : Request) (random : Q) :
  (workers self <> [] -> valid_random random ->
   0 <= random_index random (length (workers self))
     < Z.of_nat (length (workers self)) /\
   (exists w, w ∈ workers self /\
              _randomPort self random = Normal (w_port w)) /\
   (exists self', calculateLeastBusyPort self random = Normal self') /\
   (exists c, _proxyHTTP url_parse_query self req random = Normal c) /\
   (exists c, _proxyWebSocket url_parse_query self req random = Normal c)) /\
  (opt_workers options <> [] -> valid_random random ->
   exists lb w,
     w ∈ opt_workers options /\
     LoadBalancer_new options random = Normal lb /\
     leastBusyPort lb = Some (w_port w)) /\
  (workers self = [] ->
   _randomPort self random = TypeError /\
   ((forall e, e ∈ workerStatuses self -> business e.2 = Infinity) ->
    calculateLeastBusyPort self random = TypeError)) /\
  (opt_workers options = [] ->
   LoadBalancer_new options random = TypeError).
Proof.
  split; [|split; [|split]].
  - intros Hne Hr.
    destruct (_randomPort_Normal self random Hne Hr) as (w & Hw & Hin & Hp).
    split.
    { apply random_index_bounds; [done|].
      destruct (workers self); [done | simpl; lia]. }
    split; [eauto|]. split; [|split].
    + unfold calculateLeastBusyPort.
      destruct (least_busy_loop (workerStatuses self)) as [minB lbp].
      destruct (is_Infinity minB); [rewrite Hp|]; simpl; eauto.
    + unfold _proxyHTTP.
      destruct (_parseDest url_parse_query self req) as [dest|]; [|eauto].
      destruct (dest_unknown self (d_port dest)); [rewrite Hp|]; simpl; eauto.
    + unfold _proxyWebSocket.
      destruct (_parseDest url_parse_query self req) as [dest|]; [|eauto].
      destruct (dest_unknown self (d_port dest)); [rewrite Hp|]; simpl; eauto.
  - intros Hne Hr. unfold LoadBalancer_new.
    match goal with
    | |- context [_randomPort ?s random] =>
        destruct (_randomPort_Normal s random Hne Hr) as (w & _ & Hin & Hp)
    end.
    rewrite Hp. simpl. eauto.
  - intros Hempty. pose proof (_randomPort_empty self random Hempty) as Hp.
    split; [done|]. intros Hall.
    by rewrite (calculateLeastBusyPort_all_Infinity self random Hall), Hp.
  - intros Hempty. unfold LoadBalancer_new.
    by rewrite _randomPort_empty.
Qed.

End Dispatcher.

Lemma two_worker_balancer_known (lbp p : Z) :
  p ∈ knownPorts (two_worker_balancer lbp) <-> p = 8081 \/ p = 8082.
Proof.
  change (knownPorts (two_worker_balancer lbp))
    with (knownPorts (setWorkers two_workers (mkLB 5000 10000 [] ∅ [] None []))).
  rewrite setWorkers_knownPorts. simpl.
  rewrite !elem_of_cons, elem_of_nil. tauto.
Qed.

Lemma two_worker_balancer_consistent (lbp : Z) :
  pool_consistent (two_worker_balancer lbp).
Proof.
  intros p. rewrite two_worker_balancer_known. simpl.
  rewrite !elem_of_cons, elem_of_nil. tauto.
Qed.

Lemma dispatch_two_tier_witness :
  _proxyHTTP query_of_url (two_worker_balancer 8081)
    (request_with "/" None) (1 # 2) =
    Normal (proxy_web (mkDest "localhost" (Some 8081))) /\
  _proxyWebSocket query_of_url (two_worker_balancer 8081)
    (request_with "/?sid=AAA_8082_ZZZ_xyz" None) (1 # 2) =
    Normal (proxy_ws (mkDest "localhost" (Some 8082))) /\
  (exists w,
     w_port w ∈ knownPorts (two_worker_balancer 8081) /\
     _proxyHTTP query_of_url (two_worker_balancer 8081)
       (request_with "/?sid=AAA_9999_ZZZ_xyz" None) (1 # 2) =
       Normal (proxy_web (mkDest "localhost" (Some (w_port w))))) /\
  _proxyWebSocket query_of_url (two_worker_balancer 8081)
    (request_with "/?sid=AAA_9999_ZZZ_xyz" None) (1 # 2) =
    Normal (proxy_ws (mkDest "localhost" (Some 8082))).
Proof.
  assert (forall p,
            d_port (mkDest "localhost" (Some 9999)) = Some p ->
            p ∉ knownPorts (two_worker_balancer 8081)) as Hout.
  { intros p [= <-] Hin. apply two_worker_balancer_known in Hin. lia. }
  split; [|split; [|split]].
  - destruct (dispatch_two_tier query_of_url (two_worker_balancer 8081)
                (request_with "/" None) (1 # 2)) as (H & _).
    by apply H.
  - destruct (dispatch_two_tier query_of_url (two_worker_balancer 8081)
                (request_with "/?sid=AAA_8082_ZZZ_xyz" None) (1 # 2))
      as (_ & H & _).
    apply (H (mkDest "localhost" (Some 8082)) 8082); [done | done |].
    apply two_worker_balancer_known. by right.
  - destruct (dispatch_two_tier query_of_url (two_worker_balancer 8081)
                (request_with "/?sid=AAA_9999_ZZZ_xyz" None) (1 # 2))
      as (_ & _ & H & _).
    destruct (H (mkDest "localhost" (Some 9999)) eq_refl Hout)
      as (_ & _ & _ & Hw & _).
    destruct (Hw ltac:(done) valid_random_half
                (two_worker_balancer_consistent 8081))
      as (w & _ & Hin & Hc & _).
    by exists w.
  - destruct (dispatch_two_tier query_of_url (two_worker_balancer 8081)
                (request_with "/?sid=AAA_9999_ZZZ_xyz" None) (1 # 2))
      as (_ & _ & H & _).
    destruct (H (mkDest "localhost" (Some 9999)) eq_refl Hout)
      as (_ & _ & _ & _ & Hu).
    apply (Hu 1%nat (worker_at 8082) eq_refl); [reflexivity|].
    exact half_draws_second.
Defined.

Lemma nonempty_pool_precondition_witness :
  (exists w, w ∈ workers (two_worker_balancer 8081) /\
             _randomPort (two_worker_balancer 8081) (1 # 2) =
               Normal (w_port w)) /\
  (exists lb w,
     w ∈ two_workers /\
     LoadBalancer_new (mkOptions None None two_workers) (1 # 2) = Normal lb /\
     leastBusyPort lb = Some (w_port w)) /\
  _randomPort empty_balancer (1 # 2) = TypeError /\
  calculateLeastBusyPort empty_balancer (1 # 2) = TypeError /\
  LoadBalancer_new (mkOptions None None []) (1 # 2) = TypeError.
Proof.
  destruct (nonempty_pool_precondition query_of_url
              (two_worker_balancer 8081) (mkOptions None None two_workers)
              (request_with "/" None) (1 # 2)) as (H1 & H2 & _ & _).
  destruct (nonempty_pool_precondition query_of_url
              empty_balancer (mkOptions None None [])
              (request_with "/" None) (1 # 2)) as (_ & _ & H3 & H4).
  split; [|split; [|split; [|split]]].
  - by apply H1; [|exact valid_random_half].
  - by apply H2; [|exact valid_random_half].
  - by apply H3.
  - apply H3; [done|]. intros e He. by apply elem_of_nil in He.
  - by apply H4.
Defined.

(** ** Reachable states *)

Lemma obj_replace_keys {V : Type} (k : Z) (v : V) (o : jsobj V) :
  obj_keys (obj_replace k v o) = obj_keys o.
Proof.
  induction o as [|[k' v'] o IH]; [done|]. simpl.
  destruct (Z.eqb_spec k' k) as [->|_]; simpl; [done | by rewrite IH].
Qed.

Lemma obj_create_keys {V : Type} (k : Z) (v : V) (o : jsobj V) (p : Z) :
  p ∈ obj_keys (obj_create k v o) -> p = k \/ p ∈ obj_keys o.
Proof.
  induction o as [|[k' v'] o IH]; simpl.
  - intros H. apply list_elem_of_singleton in H. by left.
  - destruct (is_index k && _); simpl.
    + intros H. apply elem_of_cons in H as [->|H]; [by left | by right].
    + intros H. apply elem_of_cons in H as [->|H].
      * right. apply list_elem_of_here.
      * destruct (IH H) as [->|H']; [by left|].
        right. by apply list_elem_of_further.
Qed.

Lemma obj_set_keys {V : Type} (k : Z) (v : V) (o : jsobj V) (p : Z) :
  p ∈ obj_keys (obj_set k v o) -> p = k \/ p ∈ obj_keys o.
Proof.
  unfold obj_set. destruct (obj_get o k).
  - rewrite obj_replace_keys. by right.
  - apply obj_create_keys.
Qed.

Lemma least_busy_loop_key (l : jsobj (option WorkerStatus)) (p : Z) :
  (least_busy_loop l).2 = Some p -> p ∈ obj_keys l.
Proof.
  pose proof (least_busy_loop_spec l) as H.
  destruct (least_busy_loop l) as [minB lbp]. simpl.
  destruct H as (_ & Hinf & Hfin). intros ->.
  destruct minB as [m|]; [|by specialize (Hinf eq_refl)].
  destruct (Hfin ltac:(done)) as (l1 & q & s & l2 & -> & [= <-] & _).
  unfold obj_keys. rewrite map_app. apply elem_of_app. right.
  apply list_elem_of_here.
Qed.

Lemma calculateLeastBusyPort_Normal (self self' : LoadBalancer) (random : Q) :
  calculateLeastBusyPort self random = Normal self' ->
  exists p,
    self' = set_leastBusyPort (Some p) self /\
    (p ∈ obj_keys (workerStatuses self) \/ p ∈ map w_port (workers self)).
Proof.
  pose proof (least_busy_loop_key (workerStatuses self)) as Hkey.
  pose proof (least_busy_loop_spec (workerStatuses self)) as Hspec.
  unfold calculateLeastBusyPort.
  destruct (least_busy_loop (workerStatuses self)) as [minB lbp].
  simpl in Hkey. destruct Hspec as (_ & _ & Hfin).
  destruct minB as [m|]; simpl.
  - intros [= <-].
    destruct (Hfin ltac:(done)) as (l1 & q & s & l2 & _ & -> & _).
    exists q. split; [done|]. left. by apply Hkey.
  - destruct (_randomPort self random) as [q|] eqn:Hq; [|done].
    simpl. intros [= <-]. exists q. split; [done|]. right.
    by eapply _randomPort_port.
Qed.

Lemma remove_first_subset (p q : Z) (l : list Z) :
  p ∈ remove_first q l -> p ∈ l.
Proof.
  induction l as [|x l IH]; simpl; [done|].
  destruct (x =? q).
  - intros H. by apply list_elem_of_further.
  - intros H. apply elem_of_cons in H as [->|H];
      [apply list_elem_of_here | by apply list_elem_of_further, IH].
Qed.

Lemma elem_of_list_insert_inv {A : Type} (l : list A) (i : nat) (x y : A) :
  y ∈ <[i := x]> l -> y = x \/ y ∈ l.
Proof.
  intros H. apply list_elem_of_lookup_1 in H as [j Hj].
  apply list_lookup_insert_Some in Hj as [(_ & -> & _)|(_ & Hj)];
    [by left | right; by eapply list_elem_of_lookup_2].
Qed.

Lemma configured_inv_mono (configured extra : list Z) (s : System) :
  configured_inv configured s -> configured_inv (configured ++ extra) s.
Proof.
  intros (Hc & Hw & Hs & Hf & p & Hp & Hin).
  split; [done|]. repeat split.
  - intros q Hq. apply elem_of_app. left. by apply Hw.
  - intros q Hq. apply elem_of_app. left. by apply Hs.
  - intros cyc q Hcyc Hq. apply elem_of_app. left. by eapply Hf.
  - exists p. split; [done|]. apply elem_of_app. by left.
Qed.

Lemma configured_inv_new (options : Options) (random : Q) (lb : LoadBalancer) :
  LoadBalancer_new options random = Normal lb ->
  configured_inv (map w_port (opt_workers options)) (mkSystem lb []).
Proof.
  intros H.
  apply LoadBalancer_new_workers in H as (Hw & Hs & Hc & _ & p & Hp & Hin).
  split; [done|]. simpl. rewrite Hw, Hs. repeat split.
  - done.
  - intros q Hq. by apply elem_of_nil in Hq.
  - intros cyc q Hcyc. by apply elem_of_nil in Hcyc.
  - by exists p.
Qed.

Lemma configured_inv_calculate (configured : list Z) (lb lb' : LoadBalancer)
    (cycles : list Cycle) (random : Q) :
  configured_inv configured (mkSystem lb cycles) ->
  calculateLeastBusyPort lb random = Normal lb' ->
  configured_inv configured (mkSystem lb' cycles).
Proof.
  intros (Hc & Hw & Hs & Hf & _) H.
  apply calculateLeastBusyPort_Normal in H as (p & -> & Hp).
  split; [done|]. repeat split; simpl in *; try done.
  exists p. split; [done|]. destruct Hp as [Hp|Hp]; [by apply Hs | by apply Hw].
Qed.

Lemma configured_inv_status (configured : list Z) (lb : LoadBalancer)
    (cycles : list Cycle) (port : Z) (status : option WorkerStatus) :
  configured_inv configured (mkSystem lb cycles) ->
  port ∈ configured ->
  configured_inv configured (mkSystem (set_workerStatus port status lb) cycles).
Proof.
  intros (Hc & Hw & Hs & Hf & Hl) Hport.
  split; [done|]. repeat split; simpl in *; try done.
  intros q Hq. apply obj_set_keys in Hq as [->|Hq]; [done | by apply Hs].
Qed.

Lemma configured_inv_cycles (configured : list Z) (lb : LoadBalancer)
    (cycles cycles' : list Cycle) :
  configured_inv configured (mkSystem lb cycles) ->
  (forall cyc p, cyc ∈ cycles' -> p ∈ inFlight cyc -> p ∈ configured) ->
  configured_inv configured (mkSystem lb cycles').
Proof.
  intros (Hc & Hw & Hs & Hf & Hl) H. split; [done|]. by repeat split.
Qed.

Lemma configured_inv_step (configured : list Z) (s : System) (e : Event) :
  configured_inv configured s -> enabled e s ->
  configured_inv (configured ++ event_ports e) (step e s).
Proof.
  intros Hinv Hen. destruct s as [lb cycles].
  destruct e as [ws| |c port body random|c port|random|upgrade req random];
    simpl in *.
  - destruct Hinv as (Hc & Hw & Hs & Hf & p & Hp & Hin).
    split; [apply setWorkers_consistent|]. repeat split; simpl.
    + intros q Hq. apply elem_of_app. by right.
    + intros q Hq. apply elem_of_app. left. by apply Hs.
    + intros cyc q Hcyc Hq. apply elem_of_app. left. by eapply Hf.
    + exists p. split; [done|]. apply elem_of_app. by left.
  - apply configured_inv_mono.
    eapply configured_inv_cycles; [exact Hinv|].
    destruct Hinv as (_ & Hw & _ & Hf & _). simpl in *.
    intros cyc p Hcyc Hp. apply elem_of_app in Hcyc as [Hcyc|Hcyc];
      [by eapply Hf|].
    apply list_elem_of_singleton in Hcyc as ->. by apply Hw.
  - apply configured_inv_mono.
    destruct Hen as (_ & cyc & Hcyc & Hport). rewrite Hcyc.
    assert (port ∈ configured) as Hpc.
    { destruct Hinv as (_ & _ & _ & Hf & _).
      eapply Hf; [|exact Hport]. by eapply list_elem_of_lookup_2. }
    assert (forall cyc' q,
              inFlight cyc' = remove_first port (inFlight cyc) ->
              forall x, x ∈ <[c := cyc']> cycles -> q ∈ inFlight x ->
              q ∈ configured) as Hfl.
    { destruct Hinv as (_ & _ & _ & Hf & _). simpl in Hf.
      intros cyc' q E x Hx Hq. apply elem_of_list_insert_inv in Hx as [->|Hx].
      - rewrite E in Hq. apply remove_first_subset in Hq.
        eapply Hf; [|exact Hq]. by eapply list_elem_of_lookup_2.
      - by eapply Hf. }
    pose proof (configured_inv_status _ _ _ port (status_of_body body)
                  Hinv Hpc) as Hinv1.
    unfold on_end. destruct (concat_throws body).
    { eapply configured_inv_cycles; [exact Hinv|].
      intros x q. by apply Hfl. }
    destruct (_ >=? _).
    + destruct (calculateLeastBusyPort _ random) as [lb'|] eqn:Hcalc.
      * eapply configured_inv_cycles.
        -- eapply configured_inv_calculate; [exact Hinv1 | exact Hcalc].
        -- intros x q. by apply Hfl.
      * eapply configured_inv_cycles; [exact Hinv1|].
        intros x q. by apply Hfl.
    + eapply configured_inv_cycles; [exact Hinv1|].
      intros x q. by apply Hfl.
  - apply configured_inv_mono.
    destruct Hen as (cyc & Hcyc & Hport). rewrite Hcyc. simpl.
    eapply configured_inv_cycles; [exact Hinv|].
    destruct Hinv as (_ & _ & _ & Hf & _). simpl in Hf.
    intros x q Hx Hq. apply elem_of_list_insert_inv in Hx as [->|Hx].
    + simpl in Hq. apply remove_first_subset in Hq.
      eapply Hf; [|exact Hq]. by eapply list_elem_of_lookup_2.
    + by eapply Hf.
  - apply configured_inv_mono.
    destruct (calculateLeastBusyPort lb random) as [lb'|] eqn:Hcalc; [|done].
    by eapply configured_inv_calculate.
  - by apply configured_inv_mono.
Qed.

Lemma reachable_configured_inv (pick : Z) (configured : list Z) (s : System) :
  reachable pick configured s ->
  configured_inv configured s /\ pick ∈ configured.
Proof.
  induction 1 as [options random lb pick Hr Hnew Hpick
                 |pick configured s e Hreach [IH Hin] Hen].
  - split; [by eapply configured_inv_new|].
    apply LoadBalancer_new_workers in Hnew as (_ & _ & _ & _ & p & Hp & Hin).
    congruence.
  - split; [by apply configured_inv_step|]. apply elem_of_app. by left.
Qed.

Lemma two_worker_balancer_new (random : Q) (pick : Z) :
  _randomPort (two_worker_balancer 0) random = Normal pick ->
  LoadBalancer_new (mkOptions None None two_workers) random =
    Normal (two_worker_balancer pick).
Proof.
  intros H. unfold LoadBalancer_new.
  change (_randomPort _ random) with (_randomPort (two_worker_balancer 0) random).
  by rewrite H.
Qed.

(** [enabled_now] proves that an event is enabled in a concrete system. *)
Ltac enabled_now :=
  vm_compute;
  repeat match goal with
    | |- _ /\ _ => split
    | |- ex _ => eexists
    | |- _ = _ => reflexivity
    | |- _ -> False => discriminate
    | |- True => exact I
    | |- list_elem_of _ _ =>
        cbv beta iota;
        first [apply list_elem_of_here | apply list_elem_of_further]
    end.

(** [reach_by H e]: the system reached by the enabled event [e] from the
    system that [H] shows reachable. *)
Ltac reach_by H e := apply (reach_step _ _ _ e H); enabled_now.

Lemma polled_system_reachable :
  reachable 8081 [8081; 8082] polled_system.
Proof.
  assert (reachable 8081 [8081; 8082]
            (mkSystem (two_worker_balancer 8081) [])) as H0.
  { apply (reach_new (mkOptions None None two_workers) 0);
      [exact valid_random_zero | by apply two_worker_balancer_new | done]. }
  assert (reachable 8081 [8081; 8082]
            (step EvTimer (mkSystem (two_worker_balancer 8081) []))) as H1
    by reach_by H0 EvTimer.
  assert (reachable 8081 [8081; 8082]
            (step (EvEnd 0 8081 (StatusBody (mkStatus 5 5 5)) 0)
               (step EvTimer (mkSystem (two_worker_balancer 8081) []))))
    as H2 by reach_by H1 (EvEnd 0 8081 (StatusBody (mkStatus 5 5 5)) 0).
  reach_by H2 (EvEnd 0 8082 (StatusBody (mkStatus 0 0 0)) 0).
Qed.

Lemma reconfigured_system_reachable :
  reachable 8081 [8081; 8082; 9000] reconfigured_system.
Proof.
  reach_by polled_system_reachable (EvSetWorkers [worker_at 9000]).
Qed.

(** C8, as the code has it. In every reachable state [leastBusyPort] is
    defined and is the port of a worker of the current or of an earlier
    worker list; the known ports and the initial pick are such ports too. *)
Theorem leastBusyPort_configured (pick : Z) (configured : list Z) (s : System) :
  reachable pick configured s ->
  (exists p, leastBusyPort (sys_lb s) = Some p /\ p ∈ configured) /\
  (forall p, p ∈ knownPorts (sys_lb s) -> p ∈ configured) /\
  pick ∈ configured.
Proof.
  intros H. apply reachable_configured_inv in H as [(Hc & Hw & _ & _ & Hl) Hp].
  split; [done|]. split; [|done].
  intros p Hin. by apply Hw, Hc.
Qed.

Lemma leastBusyPort_configured_witness :
  exists p, leastBusyPort (sys_lb reconfigured_system) = Some p /\
            p ∈ [8081; 8082; 9000].
Proof.
  apply (leastBusyPort_configured 8081 [8081; 8082; 9000] reconfigured_system).
  exact reconfigured_system_reachable.
Defined.

(** C8 as stated fails: after a cycle has made 8082 the least-busy port and
    the pool has been replaced by the single worker 9000, [leastBusyPort] is
    8082, which is neither a known port nor the initial pick 8081. *)
Lemma leastBusyPort_outside_knownPorts :
  reachable 8081 [8081; 8082; 9000] reconfigured_system /\
  leastBusyPort (sys_lb reconfigured_system) = Some 8082 /\
  (8082 ∉ knownPorts (sys_lb reconfigured_system)) /\
  8082 <> 8081.
Proof.
  split; [exact reconfigured_system_reachable|].
  split; [reflexivity|]. split; [|lia].
  change (sys_lb reconfigured_system)
    with (setWorkers [worker_at 9000] (sys_lb polled_system)).
  rewrite setWorkers_knownPorts. simpl.
  rewrite elem_of_cons, elem_of_nil. lia.
Qed.


(** ** A poll that times out *)

Lemma on_timeout_unchanged (port : Z) (self : LoadBalancer) (cyc : Cycle) :
  (on_timeout port self cyc).1 = self /\
  statusesRead (on_timeout port self cyc).2 = statusesRead cyc /\
  aggregations (on_timeout port self cyc).2 = aggregations cyc.
Proof. done. Qed.

(** The completions still possible can no longer reach [workerCount] once a
    request of the cycle has timed out: no later ['end'] of the cycle calls
    [calculateLeastBusyPort]. *)
Lemma on_end_starved (port : Z) (body : PollBody) (random : Q)
    (self : LoadBalancer) (cyc : Cycle) :
  port ∈ inFlight cyc ->
  statusesRead cyc + Z.of_nat (length (inFlight cyc)) < workerCount cyc ->
  let cyc' := (on_end port body random self cyc).2 in
  aggregations cyc' = aggregations cyc /\
  statusesRead cyc' + Z.of_nat (length (inFlight cyc')) < workerCount cyc'.
Proof.
  intros Hin Hlt.
  assert (length (inFlight cyc) = S (length (remove_first port (inFlight cyc))))
    as Hlen.
  { clear Hlt. induction (inFlight cyc) as [|q l IH]; simpl.
    - by apply elem_of_nil in Hin.
    - destruct (Z.eqb_spec q port) as [->|Hne]; [done|]. simpl. f_equal.
      apply IH. apply elem_of_cons in Hin as [->|Hin]; done. }
  unfold on_end. destruct (concat_throws body); [simpl; lia|].
  destruct (Z.geb_spec (statusesRead cyc + 1) (workerCount cyc)) as [Hge|_];
    simpl; lia.
Qed.

Lemma on_timeout_starves (port : Z) (self : LoadBalancer) :
  port ∈ map w_port (workers self) ->
  let cyc' := (on_timeout port self (_updateStatus self)).2 in
  statusesRead cyc' + Z.of_nat (length (inFlight cyc')) < workerCount cyc'.
Proof.
  intros Hin. simpl.
  assert (forall l : list Z, port ∈ l ->
            length l = S (length (remove_first port l))) as Hlen.
  { induction l as [|q l IH]; simpl; intros H.
    - by apply elem_of_nil in H.
    - destruct (Z.eqb_spec q port) as [->|Hne]; [done|]. simpl. f_equal.
      apply IH. apply elem_of_cons in H as [->|H]; done. }
  specialize (Hlen _ Hin). rewrite length_map in Hlen. lia.
Qed.

Lemma first_cycle_system_reachable :
  reachable 8082 [8081; 8082] first_cycle_system.
Proof.
  assert (reachable 8082 [8081; 8082]
            (mkSystem (two_worker_balancer 8082) [])) as H0.
  { apply (reach_new (mkOptions None None two_workers) (1 # 2));
      [exact valid_random_half | by apply two_worker_balancer_new | done]. }
  assert (reachable 8082 [8081; 8082]
            (step EvTimer (mkSystem (two_worker_balancer 8082) []))) as H1
    by reach_by H0 EvTimer.
  assert (reachable 8082 [8081; 8082]
            (step (EvEnd 0 8081 (StatusBody (mkStatus 0 0 0)) 0)
               (step EvTimer (mkSystem (two_worker_balancer 8082) []))))
    as H2 by reach_by H1 (EvEnd 0 8081 (StatusBody (mkStatus 0 0 0)) 0).
  reach_by H2 (EvEnd 0 8082 (StatusBody (mkStatus 5 5 5)) 0).
Qed.

(** C3 on a failing input. After a first cycle has made 8081 the least-busy
    port, a second cycle starts in which the request to 8081 times out and
    8082 answers. The run is reachable. After it the slot of 8081 still holds
    the status of the first cycle, the second cycle has counted one completion
    of two with no request left in flight and has not called
    [calculateLeastBusyPort], and [leastBusyPort] is still 8081, the worker
    that did not answer. *)
Theorem updateStatus_timeout_not_counted :
  reachable 8082 [8081; 8082] timed_out_system /\
  leastBusyPort (sys_lb first_cycle_system) = Some 8081 /\
  obj_get (workerStatuses (sys_lb timed_out_system)) 8081 =
    Some (Some (mkStatus 0 0 0)) /\
  obj_get (workerStatuses (sys_lb timed_out_system)) 8082 =
    Some (Some (mkStatus 1 1 1)) /\
  sys_cycles timed_out_system !! 1%nat = Some (mkCycle 1 2 [] 0) /\
  leastBusyPort (sys_lb timed_out_system) = Some 8081.
Proof.
  split; [|by repeat split].
  assert (reachable 8082 [8081; 8082] (step EvTimer first_cycle_system))
    as H1 by reach_by first_cycle_system_reachable EvTimer.
  assert (reachable 8082 [8081; 8082]
            (step (EvTimeout 1 8081) (step EvTimer first_cycle_system)))
    as H2 by reach_by H1 (EvTimeout 1 8081).
  reach_by H2 (EvEnd 1 8082 (StatusBody (mkStatus 1 1 1)) 0).
Qed.

Lemma obj_get_set {V : Type} (k : Z) (v : V) (o : jsobj V) :
  obj_get (obj_set k v o) k = Some v.
Proof.
  unfold obj_set. destruct (obj_get o k) as [v0|] eqn:E.
  - induction o as [|[k' v'] o IH]; simpl in *; [done|].
    destruct (Z.eqb_spec k' k) as [->|Hne]; simpl.
    + by rewrite Z.eqb_refl.
    + destruct (Z.eqb_spec k' k); [done | by apply IH].
  - induction o as [|[k' v'] o IH]; simpl in *.
    + by rewrite Z.eqb_refl.
    + destruct (Z.eqb_spec k' k) as [->|Hne]; [done|].
      destruct (is_index k && _); simpl.
      * by rewrite Z.eqb_refl.
      * destruct (Z.eqb_spec k' k); [done | by apply IH].
Qed.

Lemma calculateLeastBusyPort_statuses (self self' : LoadBalancer)
    (random : Q) :
  calculateLeastBusyPort self random = Normal self' ->
  workerStatuses self' = workerStatuses self.
Proof.
  intros H. by apply calculateLeastBusyPort_Normal in H as (p & -> & _).
Qed.

(** The sibling path: a response that ends with an empty or malformed body
    stores [null] in the slot of its worker and counts as a completion, and
    the completion that reaches [workerCount] runs the aggregation. *)
Lemma on_end_counts (port : Z) (body : PollBody) (random : Q)
    (self : LoadBalancer) (cyc : Cycle) :
  concat_throws body = false ->
  obj_get (workerStatuses (on_end port body random self cyc).1) port =
    Some (status_of_body body) /\
  statusesRead (on_end port body random self cyc).2 = statusesRead cyc + 1 /\
  (statusesRead cyc + 1 >= workerCount cyc ->
   aggregations (on_end port body random self cyc).2 =
     S (aggregations cyc)).
Proof.
  intros Hread. unfold on_end. rewrite Hread.
  destruct (Z.geb_spec (statusesRead cyc + 1) (workerCount cyc)) as [Hge|Hlt];
    simpl.
  - split; [|split; [done | done]].
    destruct (calculateLeastBusyPort _ random) as [lb'|] eqn:Hc.
    + rewrite (calculateLeastBusyPort_statuses _ _ _ Hc). simpl.
      apply obj_get_set.
    + simpl. apply obj_get_set.
  - split; [apply obj_get_set|]. split; [done | lia].
Qed.

(** ** Enumeration order of the status slots *)

Lemma obj_get_None {V : Type} (o : jsobj V) (k : Z) :
  obj_get o k = None -> k ∉ obj_keys o.
Proof.
  induction o as [|[k' v'] o IH]; simpl.
  { intros _ H. by apply elem_of_nil in H. }
  destruct (Z.eqb_spec k' k) as [->|Hne]; [done|].
  intros H Hin. apply elem_of_cons in Hin as [->|Hin]; [done | by apply IH].
Qed.

Lemma obj_create_ascending {V : Type} (k : Z) (v : V) (o : jsobj V) :
  is_index k = true -> k ∉ obj_keys o ->
  enum_ascending o -> enum_ascending (obj_create k v o).
Proof.
  intros Hk. induction o as [|[k' v'] o IH]; intros Hnotin [Hs Hi].
  - split; repeat constructor; done.
  - change (obj_keys ((k', v') :: o)) with (k' :: obj_keys o) in *.
    apply StronglySorted_inv in Hs as [Hs Hall].
    apply Forall_cons in Hi as [Hk' Hi].
    assert (k <> k') as Hne.
    { intros ->. apply Hnotin. apply list_elem_of_here. }
    assert (k ∉ obj_keys o) as Hnotin'.
    { intros H. apply Hnotin. by apply list_elem_of_further. }
    cbn [obj_create]. rewrite Hk, Hk'. cbn [negb orb andb].
    destruct (Z.ltb_spec k k') as [Hlt|Hge].
    + change (obj_keys ((k, v) :: (k', v') :: o))
        with (k :: k' :: obj_keys o).
      split; [|by repeat constructor].
      constructor; [by constructor|].
      constructor; [done|].
      eapply Forall_impl; [exact Hall|]. intros x Hx. simpl. lia.
    + change (obj_keys ((k', v') :: obj_create k v o))
        with (k' :: obj_keys (obj_create k v o)).
      destruct (IH Hnotin' (conj Hs Hi)) as [Hs' Hi'].
      split; [|by constructor].
      constructor; [done|].
      apply Forall_forall. intros x Hx.
      apply obj_create_keys in Hx as [->|Hx]; [simpl; lia|].
      rewrite Forall_forall in Hall. by apply Hall.
Qed.

Lemma obj_set_ascending {V : Type} (k : Z) (v : V) (o : jsobj V) :
  is_index k = true -> enum_ascending o -> enum_ascending (obj_set k v o).
Proof.
  intros Hk Ho. unfold obj_set. destruct (obj_get o k) eqn:E.
  - unfold enum_ascending. by rewrite obj_replace_keys.
  - apply obj_create_ascending; [done | by apply obj_get_None | done].
Qed.

(** Two workers with the same score: the loop keeps the lower port, in
    whichever order the two slots were written. *)
Example ties_go_to_the_lowest_port :
  (least_busy_loop
     (obj_set 8081 (Some (mkStatus 1 1 1))
        (obj_set 8082 (Some (mkStatus 3 0 0)) []))).2 = Some 8081 /\
  (least_busy_loop
     (obj_set 8082 (Some (mkStatus 3 0 0))
        (obj_set 8081 (Some (mkStatus 1 1 1)) []))).2 = Some 8081.
Proof. split; reflexivity. Qed.

(** * Further properties of the code *)

(** ** The middleware chains *)

Lemma applyEachSeries_app (a b : list Middleware) (req : Request) :
  applyEachSeries (a ++ b) req =
    match applyEachSeries a req with
    | (n, Next r) =>
        let '(k, v) := applyEachSeries b r in ((n + k)%nat, v)
    | other => other
    end.
Proof.
  revert req. induction a as [|f a IH]; intros req; simpl.
  - by destruct (applyEachSeries b req).
  - destruct (f req) as [req'| |]; [|done..].
    rewrite IH. destruct (applyEachSeries a req') as [n [r| |]]; [|done..].
    by destruct (applyEachSeries b r).
Qed.

Lemma applyEachSeries_count (fns : list Middleware) (req : Request) :
  ((applyEachSeries fns req).1 <= length fns)%nat /\
  forall req', (applyEachSeries fns req).2 = Next req' ->
               (applyEachSeries fns req).1 = length fns.
Proof.
  revert req. induction fns as [|f fns IH]; intros req; simpl.
  - split; [lia | done].
  - destruct (f req) as [r| |]; simpl; [|split; [lia | done]..].
    destruct (IH r) as [Hle Heq].
    destruct (applyEachSeries fns r) as [n v]. simpl in *.
    split; [lia|]. intros req' Hv. f_equal. by eapply Heq.
Qed.

Section PipelineProperties.

Variable url_parse_query : string -> option string.

(** X1. The first handler that calls back with an error ends the chain: the
    handlers registered after it are not called, the exchange is not
    dispatched, and the error goes to the fault handler, which emits it
    unless its message is one of the two transient signatures. *)
Theorem middleware_short_circuit (m : Middlewares) (self : LoadBalancer)
    (req req1 : Request) (random : Q) (pre post : list Middleware)
    (f : Middleware) (err : Fault) :
  applyEachSeries pre req = (length pre, Next req1) ->
  f req1 = Veto err ->
  applyEachSeries (pre ++ f :: post) req = (S (length pre), Veto err) /\
  (mw_request m = pre ++ f :: post ->
   _handleRequest url_parse_query m self req random =
     Reported (_errorDomain_on_error err)) /\
  (mw_upgrade m = pre ++ f :: post ->
   _handleUpgrade url_parse_query m self req random =
     Reported (_errorDomain_on_error err)).
Proof.
  intros Hpre Hf.
  assert (applyEachSeries (pre ++ f :: post) req = (S (length pre), Veto err))
    as Hrun.
  { rewrite applyEachSeries_app, Hpre. simpl. rewrite Hf.
    f_equal. lia. }
  split; [done|]. unfold _handleRequest, _handleUpgrade.
  split; intros ->; by rewrite Hrun.
Qed.

(** X2. An exchange reaches the dispatcher only when every handler of its
    chain has been called and has called back without an error, and the
    dispatcher then decodes the request as the last handler left it. *)
Theorem dispatch_after_full_chain (m : Middlewares) (self : LoadBalancer)
    (req : Request) (random : Q) (c : completion ProxyCall) :
  (_handleRequest url_parse_query m self req random = Dispatched c ->
   exists req',
     applyEachSeries (mw_request m) req =
       (length (mw_request m), Next req') /\
     c = _proxyHTTP url_parse_query self req' random) /\
  (_handleUpgrade url_parse_query m self req random = Dispatched c ->
   exists req',
     applyEachSeries (mw_upgrade m) req =
       (length (mw_upgrade m), Next req') /\
     c = _proxyWebSocket url_parse_query self req' random).
Proof.
  unfold _handleRequest, _handleUpgrade. split.
  - destruct (applyEachSeries_count (mw_request m) req) as [_ Hn].
    destruct (applyEachSeries (mw_request m) req) as [n [r| |]]; simpl in *;
      [|done..].
    intros [= <-]. exists r. by rewrite (Hn r eq_refl).
  - destruct (applyEachSeries_count (mw_upgrade m) req) as [_ Hn].
    destruct (applyEachSeries (mw_upgrade m) req) as [n [r| |]]; simpl in *;
      [|done..].
    intros [= <-]. exists r. by rewrite (Hn r eq_refl).
Qed.

End PipelineProperties.

(** X3. [addMiddleware] appends the handler to the chain of the named kind
    and leaves the other chain alone, so that the new handler is called last
    and only when the handlers registered before it have all called back
    without an error; a kind other than the two raises a [TypeError]. *)
Theorem addMiddleware_appends (type : string) (f : Middleware)
    (m : Middlewares) (req : Request) :
  (type = MIDDLEWARE_REQUEST ->
   exists m',
     addMiddleware type f m = Normal m' /\
     mw_request m' = mw_request m ++ [f] /\
     mw_upgrade m' = mw_upgrade m /\
     (applyEachSeries (mw_request m') req).2 =
       match (applyEachSeries (mw_request m) req).2 with
       | Next r => f r
       | v => v
       end) /\
  (type = MIDDLEWARE_UPGRADE ->
   exists m',
     addMiddleware type f m = Normal m' /\
     mw_upgrade m' = mw_upgrade m ++ [f] /\
     mw_request m' = mw_request m /\
     (applyEachSeries (mw_upgrade m') req).2 =
       match (applyEachSeries (mw_upgrade m) req).2 with
       | Next r => f r
       | v => v
       end) /\
  (type <> MIDDLEWARE_REQUEST -> type <> MIDDLEWARE_UPGRADE ->
   addMiddleware type f m = TypeError).
Proof.
  assert (forall chain,
            (applyEachSeries (chain ++ [f]) req).2 =
              match (applyEachSeries chain req).2 with
              | Next r => f r
              | v => v
              end) as Hlast.
  { intros chain. rewrite applyEachSeries_app.
    destruct (applyEachSeries chain req) as [n [r| |]]; simpl; [|done..].
    by destruct (f r). }
  split; [|split].
  - intros ->. eexists. split; [reflexivity|]. simpl. by rewrite Hlast.
  - intros ->. eexists. split; [reflexivity|]. simpl. by rewrite Hlast.
  - intros H1 H2. unfold addMiddleware.
    destruct (String.eqb_spec type MIDDLEWARE_REQUEST); [done|].
    by destruct (String.eqb_spec type MIDDLEWARE_UPGRADE).
Qed.

Lemma middleware_short_circuit_witness :
  applyEachSeries (mw_request guarded_chains) (request_with "/" None) =
    (2%nat, Veto (mkFault (Some "denied"))) /\
  _handleRequest query_of_url guarded_chains (two_worker_balancer 8081)
    (request_with "/" None) (1 # 2) =
    Reported [mkFault (Some "denied")] /\
  _handleUpgrade query_of_url
    (mkMiddlewares [] [deny "socket hang up"; allow])
    (two_worker_balancer 8081) (request_with "/" None) (1 # 2) =
    Reported [].
Proof.
  destruct (middleware_short_circuit query_of_url guarded_chains
              (two_worker_balancer 8081) (request_with "/" None)
              (request_with "/" None) (1 # 2) [allow]
              [set_url "/?sid=AAA_8082_ZZZ_"] (deny "denied")
              (mkFault (Some "denied")) eq_refl eq_refl) as (H1 & H2 & _).
  destruct (middleware_short_circuit query_of_url
              (mkMiddlewares [] [deny "socket hang up"; allow])
              (two_worker_balancer 8081) (request_with "/" None)
              (request_with "/" None) (1 # 2) [] [allow]
              (deny "socket hang up")
              (mkFault (Some "socket hang up")) eq_refl eq_refl)
    as (_ & _ & H3).
  split; [exact H1|]. split; [by apply H2 | by apply H3].
Defined.

Lemma dispatch_after_full_chain_witness :
  exists req',
    applyEachSeries (mw_upgrade guarded_chains) (request_with "/" None) =
      (1%nat, Next req') /\
    Normal (proxy_ws (mkDest "localhost" (Some 8082))) =
      _proxyWebSocket query_of_url (two_worker_balancer 8081) req' (1 # 2).
Proof.
  destruct (dispatch_after_full_chain query_of_url guarded_chains
              (two_worker_balancer 8081) (request_with "/" None) (1 # 2)
              (Normal (proxy_ws (mkDest "localhost" (Some 8082)))))
    as (_ & H).
  by apply H.
Defined.

Lemma addMiddleware_appends_witness :
  (exists m',
     addMiddleware "request" (deny "late") guarded_chains = Normal m' /\
     mw_request m' = mw_request guarded_chains ++ [deny "late"]) /\
  (exists m',
     addMiddleware "upgrade" (deny "late") guarded_chains = Normal m' /\
     (applyEachSeries (mw_upgrade m') (request_with "/" None)).2 =
       Veto (mkFault (Some "late"))) /\
  addMiddleware "websocket" allow guarded_chains = TypeError.
Proof.
  destruct (addMiddleware_appends "request" (deny "late") guarded_chains
              (request_with "/" None)) as (H1 & _ & _).
  destruct (addMiddleware_appends "upgrade" (deny "late") guarded_chains
              (request_with "/" None)) as (_ & H2 & _).
  destruct (addMiddleware_appends "websocket" allow guarded_chains
              (request_with "/" None)) as (_ & _ & H3).
  split; [|split].
  - destruct (H1 eq_refl) as (m' & Ha & Hr & _). by exists m'.
  - destruct (H2 eq_refl) as (m' & Ha & _ & _ & Hv). exists m'.
    split; [done|]. by rewrite Hv.
  - apply H3; discriminate.
Defined.

(** ** Polling cycles in every reachable state *)

Lemma remove_first_length (port : Z) (l : list Z) :
  port ∈ l -> length l = S (length (remove_first port l)).
Proof.
  induction l as [|q l IH]; simpl; intros H.
  - by apply elem_of_nil in H.
  - destruct (Z.eqb_spec q port) as [->|Hne]; [done|]. simpl. f_equal.
    apply IH. apply elem_of_cons in H as [->|H]; done.
Qed.

Lemma _updateStatus_cycle_ok (self : LoadBalancer) :
  cycle_ok (_updateStatus self).
Proof.
  unfold cycle_ok. simpl. rewrite length_map.
  split; [lia|]. split; [lia|].
  by destruct (length (workers self)).
Qed.

Lemma on_end_cycle_ok (port : Z) (body : PollBody) (random : Q)
    (self : LoadBalancer) (cyc : Cycle) :
  port ∈ inFlight cyc -> cycle_ok cyc ->
  cycle_ok (on_end port body random self cyc).2.
Proof.
  intros Hin (Hpos & Hsum & Hagg).
  pose proof (remove_first_length _ _ Hin) as Hlen.
  assert (statusesRead cyc < workerCount cyc) as Hlt by lia.
  assert (aggregations cyc = 0%nat) as Hzero.
  { rewrite Hagg. destruct (Z.eqb_spec (statusesRead cyc) (workerCount cyc));
      [lia|]. by rewrite andb_false_r. }
  unfold on_end, cycle_ok. destruct (concat_throws body).
  { simpl. split; [lia|]. split; [lia|]. done. }
  destruct (Z.geb_spec (statusesRead cyc + 1) (workerCount cyc)) as [Hge|Hlt'];
    simpl.
  - split; [lia|]. split; [lia|]. rewrite Hzero.
    destruct (Z.ltb_spec 0 (workerCount cyc)); [|lia]. simpl.
    destruct (Z.eqb_spec (statusesRead cyc + 1) (workerCount cyc)); [done|lia].
  - split; [lia|]. split; [lia|]. rewrite Hzero.
    destruct (Z.eqb_spec (statusesRead cyc + 1) (workerCount cyc)); [lia|].
    by rewrite andb_false_r.
Qed.

Lemma on_timeout_cycle_ok (port : Z) (self : LoadBalancer) (cyc : Cycle) :
  port ∈ inFlight cyc -> cycle_ok cyc ->
  cycle_ok (on_timeout port self cyc).2 /\
  cycle_starved (on_timeout port self cyc).2.
Proof.
  intros Hin (Hpos & Hsum & Hagg).
  pose proof (remove_first_length _ _ Hin) as Hlen.
  unfold cycle_ok, cycle_starved. simpl.
  split; [split; [lia | split; [lia | done]] | lia].
Qed.

Lemma on_end_cycle_starved (port : Z) (body : PollBody) (random : Q)
    (self : LoadBalancer) (cyc : Cycle) :
  port ∈ inFlight cyc -> cycle_starved cyc ->
  cycle_starved (on_end port body random self cyc).2.
Proof.
  intros Hin Hst. pose proof (remove_first_length _ _ Hin) as Hlen.
  unfold on_end, cycle_starved in *.
  destruct (concat_throws body); [simpl; lia|].
  destruct (_ >=? _); simpl; lia.
Qed.

Lemma step_cycles_ok (e : Event) (s : System) :
  Forall cycle_ok (sys_cycles s) -> enabled e s ->
  Forall cycle_ok (sys_cycles (step e s)).
Proof.
  intros Hall Hen.
  destruct e as [ws| |c port body random|c port|random|upgrade req random];
    simpl in *; try done.
  - apply Forall_app. split; [done|].
    apply Forall_singleton, _updateStatus_cycle_ok.
  - destruct Hen as (_ & cyc & Hc & Hin). rewrite Hc.
    pose proof (on_end_cycle_ok port body random (sys_lb s) cyc Hin) as Hok.
    destruct (on_end port body random (sys_lb s) cyc) as [lb cyc'].
    simpl in *. apply Forall_insert; [done|]. apply Hok.
    by eapply Forall_lookup_1.
  - destruct Hen as (cyc & Hc & Hin). rewrite Hc. simpl.
    apply Forall_insert; [done|].
    apply (on_timeout_cycle_ok port (sys_lb s) cyc Hin).
    by eapply Forall_lookup_1.
  - by destruct (calculateLeastBusyPort (sys_lb s) random).
Qed.

Lemma step_cycle_starved (e : Event) (s : System) (c : nat) (cyc : Cycle) :
  sys_cycles s !! c = Some cyc -> cycle_starved cyc -> enabled e s ->
  exists cyc', sys_cycles (step e s) !! c = Some cyc' /\ cycle_starved cyc'.
Proof.
  intros Hc Hst Hen.
  assert (c < length (sys_cycles s))%nat as Hlen by by eapply lookup_lt_Some.
  destruct e as [ws| |c' port body random|c' port|random|upgrade req random];
    simpl in *; eauto.
  - exists cyc. split; [|done]. by apply lookup_app_l_Some.
  - destruct Hen as (_ & cyc0 & Hc0 & Hin). rewrite Hc0.
    pose proof (on_end_cycle_starved port body random (sys_lb s) cyc0 Hin)
      as Hst0.
    destruct (on_end port body random (sys_lb s) cyc0) as [lb cyc']. simpl in *.
    destruct (decide (c' = c)) as [->|Hne].
    + exists cyc'. rewrite list_lookup_insert_eq by done.
      split; [done|]. apply Hst0. congruence.
    + exists cyc. by rewrite list_lookup_insert_ne.
  - destruct Hen as (cyc0 & Hc0 & Hin). rewrite Hc0. simpl.
    destruct (decide (c' = c)) as [->|Hne].
    + eexists. rewrite list_lookup_insert_eq by done. split; [done|].
      pose proof (remove_first_length _ _ Hin) as Hl.
      unfold cycle_starved in *. simpl.
      assert (cyc0 = cyc) as -> by congruence. lia.
    + exists cyc. by rewrite list_lookup_insert_ne.
  - exists cyc. by destruct (calculateLeastBusyPort (sys_lb s) random).
Qed.

Lemma reachable_cycles_ok (pick : Z) (configured : list Z) (s : System) :
  reachable pick configured s -> Forall cycle_ok (sys_cycles s).
Proof.
  induction 1 as [options random lb pick Hr Hnew Hpick
                 |pick configured s e Hreach IH Hen].
  - by apply Forall_nil.
  - by apply step_cycles_ok.
Qed.

(** X4. In every reachable state every polling cycle has aggregated at most
    once, and exactly when it polled at least one worker and has counted a
    response for each worker it polled; it then has no request in flight.
    Only an ['end'] whose body is read is counted: an ['end'] in which
    [Buffer.concat] throws takes the request out of flight and changes
    nothing else, in a cycle that has not aggregated and then never can. *)
Theorem cycles_aggregate_once (pick : Z) (configured : list Z) (s : System)
    (c : nat) (cyc : Cycle) :
  reachable pick configured s ->
  sys_cycles s !! c = Some cyc ->
  (aggregations cyc <= 1)%nat /\
  (aggregations cyc = 1%nat <->
   0 < workerCount cyc /\ statusesRead cyc = workerCount cyc) /\
  (statusesRead cyc = workerCount cyc -> inFlight cyc = []) /\
  0 <= statusesRead cyc <= workerCount cyc /\
  (forall port body random,
     port ∈ inFlight cyc -> concat_throws body = true ->
     on_end port body random (sys_lb s) cyc =
       (sys_lb s,
        mkCycle (statusesRead cyc) (workerCount cyc)
                (remove_first port (inFlight cyc)) (aggregations cyc)) /\
     aggregations cyc = 0%nat /\
     cycle_starved (on_end port body random (sys_lb s) cyc).2).
Proof.
  intros Hreach Hc. apply reachable_cycles_ok in Hreach.
  destruct (Forall_lookup_1 _ _ _ _ Hreach Hc) as (Hpos & Hsum & Hagg).
  assert (forall port body random,
            port ∈ inFlight cyc -> concat_throws body = true ->
            on_end port body random (sys_lb s) cyc =
              (sys_lb s,
               mkCycle (statusesRead cyc) (workerCount cyc)
                       (remove_first port (inFlight cyc))
                       (aggregations cyc)) /\
            aggregations cyc = 0%nat /\
            cycle_starved (on_end port body random (sys_lb s) cyc).2)
    as Hthrow.
  { intros port body random Hin Ht.
    pose proof (remove_first_length _ _ Hin) as Hlen.
    unfold on_end, cycle_starved. rewrite Ht. simpl.
    split; [done|]. split; [|lia].
    rewrite Hagg.
    destruct (Z.eqb_spec (statusesRead cyc) (workerCount cyc)); [lia|].
    by rewrite andb_false_r. }
  rewrite Hagg in *.
  destruct (Z.ltb_spec 0 (workerCount cyc));
    destruct (Z.eqb_spec (statusesRead cyc) (workerCount cyc)); simpl in *;
    (split; [lia|]); (split; [split; [try done; lia | try done; lia]|]);
    (split; [|split; [lia | exact Hthrow]]); intros E; try lia;
    destruct (inFlight cyc); [done | simpl in *; lia | done | simpl in *; lia].
Qed.

Lemma run_cycle_starved (evs : list Event) (s : System) (c : nat)
    (cyc : Cycle) :
  Forall cycle_ok (sys_cycles s) ->
  sys_cycles s !! c = Some cyc -> cycle_starved cyc ->
  run_enabled evs s ->
  exists cyc',
    sys_cycles (run evs s) !! c = Some cyc' /\
    cycle_starved cyc' /\ cycle_ok cyc'.
Proof.
  revert s cyc. induction evs as [|e evs IH]; intros s cyc Hall Hc Hst Hen.
  - exists cyc. split; [done|]. split; [done|]. by eapply Forall_lookup_1.
  - destruct Hen as [He Hen].
    destruct (step_cycle_starved e s c cyc Hc Hst He) as (cyc1 & Hc1 & Hst1).
    apply (IH (step e s) cyc1); try done. by apply step_cycles_ok.
Qed.

(** X5. Once a request of a polling cycle has timed out, that cycle never
    calls [calculateLeastBusyPort]: whatever enabled events follow, its count
    of completions stays below the number of workers it polled. *)
Theorem timeout_starves_cycle (pick : Z) (configured : list Z) (s : System)
    (c : nat) (port : Z) (evs : list Event) :
  reachable pick configured s ->
  enabled (EvTimeout c port) s ->
  run_enabled evs (step (EvTimeout c port) s) ->
  exists cyc,
    sys_cycles (run evs (step (EvTimeout c port) s)) !! c = Some cyc /\
    statusesRead cyc < workerCount cyc /\
    aggregations cyc = 0%nat.
Proof.
  intros Hreach Hen Hrun.
  pose proof (reachable_cycles_ok _ _ _ Hreach) as Hall.
  pose proof (step_cycles_ok _ _ Hall Hen) as Hall1.
  assert (exists cyc1,
            sys_cycles (step (EvTimeout c port) s) !! c = Some cyc1 /\
            cycle_starved cyc1) as (cyc1 & Hc1 & Hst1).
  { destruct Hen as (cyc0 & Hc0 & Hin). simpl. rewrite Hc0. simpl.
    eexists. rewrite list_lookup_insert_eq by by eapply lookup_lt_Some.
    split; [done|].
    apply (on_timeout_cycle_ok port (sys_lb s) cyc0 Hin).
    exact (Forall_lookup_1 _ _ _ _ Hall Hc0). }
  destruct (run_cycle_starved evs _ c cyc1 Hall1 Hc1 Hst1 Hrun)
    as (cyc & Hc & Hst & Hpos & Hsum & Hagg).
  exists cyc. split; [done|]. unfold cycle_starved in Hst.
  assert (statusesRead cyc < workerCount cyc) as Hlt by lia.
  split; [done|]. rewrite Hagg.
  destruct (Z.eqb_spec (statusesRead cyc) (workerCount cyc)); [lia|].
  by rewrite andb_false_r.
Qed.

(** ** The timers and the pool in every reachable state *)

Lemma step_timers (e : Event) (s : System) :
  statusCheckInterval (sys_lb (step e s)) = statusCheckInterval (sys_lb s) /\
  timers (sys_lb (step e s)) =
    timers (sys_lb s) ++
    match e with
    | EvSetWorkers _ => [statusCheckInterval (sys_lb s)]
    | _ => []
    end.
Proof.
  destruct e as [ws| |c port body random|c port|random|upgrade req random];
    simpl; rewrite ?app_nil_r; try done.
  - destruct (sys_cycles s !! c) as [cyc|]; [|done].
    unfold on_end. destruct (concat_throws body); [done|].
    destruct (_ >=? _); simpl; [|done].
    destruct (calculateLeastBusyPort _ random) as [lb'|] eqn:E; [|done].
    by apply calculateLeastBusyPort_Normal in E as (p & -> & _).
  - by destruct (sys_cycles s !! c).
  - destruct (calculateLeastBusyPort _ random) as [lb'|] eqn:E; [|done].
    by apply calculateLeastBusyPort_Normal in E as (p & -> & _).
Qed.

(** X6. The polling timer is always armed: in every reachable state at least
    one periodic timer is registered, so that a new polling cycle can always
    start, and every registered timer has the period [statusCheckInterval],
    which is never 0. *)
Theorem polling_timer_always_armed (pick : Z) (configured : list Z)
    (s : System) :
  reachable pick configured s ->
  timers (sys_lb s) <> [] /\
  Forall (fun t => t = statusCheckInterval (sys_lb s)) (timers (sys_lb s)) /\
  statusCheckInterval (sys_lb s) <> 0 /\
  enabled EvTimer s.
Proof.
  intros Hreach.
  assert (timers_inv (sys_lb s)) as (H1 & H2 & H3); [|done].
  induction Hreach as [options random lb pick Hr Hnew Hpick
                      |pick configured s e Hreach IH Hen].
  - pose proof (LoadBalancer_new_workers _ _ _ Hnew) as (_ & _ & _ & Ht & _).
    unfold LoadBalancer_new in Hnew.
    destruct (_randomPort _ random) as [p|]; [|done].
    simpl in Hnew. injection Hnew as <-. unfold timers_inv. simpl.
    split; [done|]. split; [by repeat constructor|].
    unfold num_or. destruct (opt_statusCheckInterval options) as [v|]; [|done].
    by destruct (Z.eqb_spec v 0).
  - destruct IH as (H1 & H2 & H3).
    destruct (step_timers e s) as [Hi Ht].
    unfold timers_inv. rewrite Hi, Ht. split; [|split; [|done]].
    + intros E. apply app_eq_nil in E as [E _]. done.
    + apply Forall_app. split; [done|]. destruct e; by repeat constructor.
Qed.

(** X7. In every reachable state [destPorts] holds exactly the ports of the
    current worker list, and a request that carries a decodable hint is only
    ever forwarded to a known port, whether the hint was kept or replaced by
    a random draw. *)
Theorem hinted_requests_reach_known_ports
    (url_parse_query : string -> option string) (pick : Z)
    (configured : list Z) (s : System) :
  reachable pick configured s ->
  pool_consistent (sys_lb s) /\
  forall (req : Request) (random : Q) (c : ProxyCall),
    _parseDest url_parse_query (sys_lb s) req <> None ->
    _proxyHTTP url_parse_query (sys_lb s) req random = Normal c \/
    _proxyWebSocket url_parse_query (sys_lb s) req random = Normal c ->
    exists p, d_port (call_target c) = Some p /\ p ∈ knownPorts (sys_lb s).
Proof.
  intros Hreach.
  apply reachable_configured_inv in Hreach as [(Hc & _) _].
  split; [done|]. intros req random c Hhint Hcall.
  assert (exists t,
            call_target c = t /\
            match _parseDest url_parse_query (sys_lb s) req with
            | Some dest =>
                (if dest_unknown (sys_lb s) (d_port dest)
                 then rand ← _randomPort (sys_lb s) random;
                      Normal (mkDest (d_host dest) (Some rand))
                 else Normal dest) = Normal t
            | None => False
            end) as (t & <- & Ht).
  { unfold _proxyHTTP, _proxyWebSocket in Hcall.
    destruct (_parseDest url_parse_query (sys_lb s) req) as [dest|]; [|done].
    destruct (dest_unknown (sys_lb s) (d_port dest)).
    - destruct (_randomPort (sys_lb s) random) as [rp|]; simpl in *;
        [|by destruct Hcall].
      destruct Hcall as [[= <-]|[= <-]]; by eexists.
    - simpl in *. destruct Hcall as [[= <-]|[= <-]]; by eexists. }
  destruct (_parseDest url_parse_query (sys_lb s) req) as [dest|]; [|done].
  destruct (dest_unknown (sys_lb s) (d_port dest)) eqn:Hu.
  - destruct (_randomPort (sys_lb s) random) as [rp|] eqn:Hrp; [|done].
    simpl in Ht. injection Ht as Ht. rewrite <- Ht. simpl.
    exists rp. split; [done|]. by apply Hc, (_randomPort_port _ random).
  - injection Ht as Ht. rewrite <- Ht.
    by apply dest_unknown_false in Hu.
Qed.

Lemma second_cycle_reachable :
  reachable 8082 [8081; 8082] (step EvTimer first_cycle_system).
Proof. reach_by first_cycle_system_reachable EvTimer. Qed.

Lemma cycles_aggregate_once_witness :
  ((aggregations (mkCycle 2 2 [] 1) <= 1)%nat /\
   (aggregations (mkCycle 2 2 [] 1) = 1%nat <->
    0 < workerCount (mkCycle 2 2 [] 1) /\
    statusesRead (mkCycle 2 2 [] 1) = workerCount (mkCycle 2 2 [] 1)) /\
   (statusesRead (mkCycle 2 2 [] 1) = workerCount (mkCycle 2 2 [] 1) ->
    inFlight (mkCycle 2 2 [] 1) = []) /\
   0 <= statusesRead (mkCycle 2 2 [] 1) <= workerCount (mkCycle 2 2 [] 1)) /\
  cycle_starved
    (on_end 8081 UnreadableBody 0
       (sys_lb (step EvTimer first_cycle_system))
       (mkCycle 0 2 [8081; 8082] 0)).2.
Proof.
  split.
  - destruct (cycles_aggregate_once 8082 [8081; 8082] first_cycle_system 0
                (mkCycle 2 2 [] 1) first_cycle_system_reachable eq_refl)
      as (H1 & H2 & H3 & H4 & _).
    split; [exact H1|]. split; [exact H2|]. split; [exact H3 | exact H4].
  - destruct (cycles_aggregate_once 8082 [8081; 8082]
                (step EvTimer first_cycle_system) 1
                (mkCycle 0 2 [8081; 8082] 0) second_cycle_reachable eq_refl)
      as (_ & _ & _ & _ & H).
    apply H; [|reflexivity]. apply list_elem_of_here.
Defined.

Lemma timeout_starves_cycle_witness :
  exists cyc,
    sys_cycles timed_out_system !! 1%nat = Some cyc /\
    statusesRead cyc < workerCount cyc /\
    aggregations cyc = 0%nat.
Proof.
  apply (timeout_starves_cycle 8082 [8081; 8082]
           (step EvTimer first_cycle_system) 1 8081
           [EvEnd 1 8082 (StatusBody (mkStatus 1 1 1)) 0]
           second_cycle_reachable).
  - enabled_now.
  - split; [enabled_now | exact I].
Defined.

Lemma polling_timer_always_armed_witness :
  timers (sys_lb reconfigured_system) <> [] /\
  Forall (fun t => t = statusCheckInterval (sys_lb reconfigured_system))
         (timers (sys_lb reconfigured_system)) /\
  statusCheckInterval (sys_lb reconfigured_system) <> 0 /\
  enabled EvTimer reconfigured_system.
Proof.
  exact (polling_timer_always_armed 8081 [8081; 8082; 9000]
           reconfigured_system reconfigured_system_reachable).
Defined.

Lemma hinted_requests_reach_known_ports_witness :
  pool_consistent (sys_lb reconfigured_system) /\
  exists p,
    d_port (call_target (proxy_web (mkDest "localhost" (Some 9000)))) =
      Some p /\
    p ∈ knownPorts (sys_lb reconfigured_system).
Proof.
  destruct (hinted_requests_reach_known_ports query_of_url 8081
              [8081; 8082; 9000] reconfigured_system
              reconfigured_system_reachable) as (Hc & Hk).
  split; [exact Hc|].
  apply (Hk (request_with "/?sid=AAA_8081_ZZZ_" None) 0%Q
            (proxy_web (mkDest "localhost" (Some 9000)))).
  - discriminate.
  - left. reflexivity.
Defined.

(** ** The status slots *)

Lemma obj_get_set_ne {V : Type} (k q : Z) (v : V) (o : jsobj V) :
  q <> k -> obj_get (obj_set k v o) q = obj_get o q.
Proof.
  intros Hne. unfold obj_set. destruct (obj_get o k) as [v0|].
  - induction o as [|[k' v'] o IH]; simpl; [done|].
    destruct (Z.eqb_spec k' k) as [->|Hk]; simpl.
    + destruct (Z.eqb_spec k q); [congruence | done].
    + by rewrite IH.
  - induction o as [|[k' v'] o IH]; simpl.
    + destruct (Z.eqb_spec k q); [congruence | done].
    + destruct (is_index k && _); simpl.
      * destruct (Z.eqb_spec k q); [congruence | done].
      * by rewrite IH.
Qed.

Lemma on_end_statuses (port : Z) (body : PollBody) (random : Q)
    (self : LoadBalancer) (cyc : Cycle) :
  workerStatuses (on_end port body random self cyc).1 =
    if concat_throws body then workerStatuses self
    else obj_set port (status_of_body body) (workerStatuses self).
Proof.
  unfold on_end. destruct (concat_throws body); [done|].
  destruct (_ >=? _); [|done].
  destruct (calculateLeastBusyPort _ random) as [lb'|] eqn:E; [|done].
  by apply calculateLeastBusyPort_Normal in E as (p & -> & _).
Qed.

Lemma step_statuses (e : Event) (s : System) :
  workerStatuses (sys_lb (step e s)) =
    match e with
    | EvEnd c port body _ =>
        match sys_cycles s !! c with
        | Some _ =>
            if concat_throws body then workerStatuses (sys_lb s)
            else obj_set port (status_of_body body)
                         (workerStatuses (sys_lb s))
        | None => workerStatuses (sys_lb s)
        end
    | _ => workerStatuses (sys_lb s)
    end.
Proof.
  destruct e as [ws| |c port body random|c port|random|upgrade req random];
    simpl; try done.
  - destruct (sys_cycles s !! c) as [cyc|]; [|done].
    pose proof (on_end_statuses port body random (sys_lb s) cyc) as H.
    by destruct (on_end port body random (sys_lb s) cyc).
  - by destruct (sys_cycles s !! c).
  - destruct (calculateLeastBusyPort _ random) as [lb'|] eqn:E; [|done].
    by apply calculateLeastBusyPort_Normal in E as (p & -> & _).
Qed.

(** X8. A status slot is written only by the end of a response of its own
    worker, and only when the body can be read: the handler then leaves the
    parsed status or [null] in the slot, and leaves the slot as it is when
    [Buffer.concat] throws. Every other event, a reconfiguration of the pool
    included, leaves the slot as it is, and no event removes a slot. *)
Theorem status_slot_frame (e : Event) (s : System) (q : Z) :
  ((forall c body random, e <> EvEnd c q body random) ->
   obj_get (workerStatuses (sys_lb (step e s))) q =
   obj_get (workerStatuses (sys_lb s)) q) /\
  (is_Some (obj_get (workerStatuses (sys_lb s)) q) ->
   is_Some (obj_get (workerStatuses (sys_lb (step e s))) q)) /\
  (forall c body random cyc,
     e = EvEnd c q body random -> sys_cycles s !! c = Some cyc ->
     obj_get (workerStatuses (sys_lb (step e s))) q =
       if concat_throws body
       then obj_get (workerStatuses (sys_lb s)) q
       else Some (status_of_body body)).
Proof.
  pose proof (step_statuses e s) as Hst.
  split; [|split].
  - intros Hne. rewrite Hst.
    destruct e as [ws| |c port body random|c port|random|upgrade req random];
      try done.
    destruct (sys_cycles s !! c); [|done].
    destruct (concat_throws body); [done|].
    apply obj_get_set_ne. intros ->. by eapply Hne.
  - intros Hq. rewrite Hst.
    destruct e as [ws| |c port body random|c port|random|upgrade req random];
      try done.
    destruct (sys_cycles s !! c); [|done].
    destruct (concat_throws body); [done|].
    destruct (decide (q = port)) as [->|Hne].
    + by rewrite obj_get_set.
    + by rewrite obj_get_set_ne.
  - intros c body random cyc -> Hc. rewrite Hst, Hc.
    destruct (concat_throws body); [done|]. apply obj_get_set.
Qed.

Lemma status_slot_frame_witness :
  obj_get (workerStatuses (sys_lb reconfigured_system)) 8082 =
    obj_get (workerStatuses (sys_lb polled_system)) 8082 /\
  is_Some (obj_get (workerStatuses (sys_lb reconfigured_system)) 8081) /\
  obj_get (workerStatuses (sys_lb polled_system)) 8082 =
    Some (Some (mkStatus 0 0 0)).
Proof.
  destruct (status_slot_frame (EvSetWorkers [worker_at 9000]) polled_system
              8082) as (H1 & _ & _).
  destruct (status_slot_frame (EvSetWorkers [worker_at 9000]) polled_system
              8081) as (_ & H2 & _).
  destruct (status_slot_frame
              (EvEnd 0 8082 (StatusBody (mkStatus 0 0 0)) 0)
              (step (EvEnd 0 8081 (StatusBody (mkStatus 5 5 5)) 0)
                 (step EvTimer (mkSystem (two_worker_balancer 8081) [])))
              8082) as (_ & _ & H3).
  split; [|split].
  - by apply H1.
  - apply H2. by eexists.
  - exact (H3 0%nat (StatusBody (mkStatus 0 0 0)) 0%Q (mkCycle 1 2 [8082] 0)
              eq_refl eq_refl).
Defined.

(** ** Aggregation and the worker list *)

(** X9. A slot whose score is finite and strictly below the score of every
    other slot wins the aggregation wherever it stands in the enumeration,
    and whether or not its port belongs to a configured worker. *)
Theorem strict_minimum_wins (self : LoadBalancer) (random : Q) (p : Z)
    (status : option WorkerStatus) :
  (p, status) ∈ workerStatuses self ->
  business status <> Infinity ->
  (forall e, e ∈ workerStatuses self -> e <> (p, status) ->
             num_lt (business status) (business e.2) = true) ->
  least_busy_loop (workerStatuses self) = (business status, Some p) /\
  calculateLeastBusyPort self random =
    Normal (set_leastBusyPort (Some p) self).
Proof.
  intros Hin Hfin Hmin.
  pose proof (least_busy_loop_spec (workerStatuses self)) as Hspec.
  assert (least_busy_loop (workerStatuses self) = (business status, Some p))
    as Hloop.
  { destruct (least_busy_loop (workerStatuses self)) as [minB lbp].
    destruct Hspec as (Hlow & _ & Hdec).
    pose proof (Hlow _ Hin) as Hle. simpl in Hle.
    assert (minB <> Infinity) as Hne.
    { intros ->. by destruct (business status). }
    destruct (Hdec Hne) as (l1 & q & t & l2 & Hl & -> & Ht & _).
    destruct (decide ((q, t) = (p, status))) as [[= -> ->]|Hd].
    - by rewrite Ht.
    - assert ((q, t) ∈ workerStatuses self) as Hqt.
      { rewrite Hl. apply elem_of_app. right. apply list_elem_of_here. }
      pose proof (Hmin _ Hqt Hd) as Hlt. simpl in Hlt.
      rewrite Ht in Hlt. by rewrite Hlt in Hle. }
  split; [done|]. unfold calculateLeastBusyPort. rewrite Hloop.
  by destruct (business status).
Qed.

Lemma strict_minimum_wins_witness :
  least_busy_loop (workerStatuses (sys_lb reconfigured_system)) =
    (Fin 0, Some 8082) /\
  calculateLeastBusyPort (sys_lb reconfigured_system) 0 =
    Normal (set_leastBusyPort (Some 8082) (sys_lb reconfigured_system)).
Proof.
  apply (strict_minimum_wins (sys_lb reconfigured_system) 0 8082
           (Some (mkStatus 0 0 0))).
  - apply list_elem_of_further, list_elem_of_here.
  - discriminate.
  - intros e He Hne.
    apply elem_of_cons in He as [->|He]; [reflexivity|].
    apply elem_of_cons in He as [->|He]; [done|].
    by apply elem_of_nil in He.
Defined.

(** ** The random draw and the faults *)



Lemma _randomPort_TypeError (self : LoadBalancer) (random : Q) :
  valid_random random ->
  _randomPort self random = TypeError <-> workers self = [].
Proof.
  intros Hr. split; [|apply _randomPort_empty].
  intros E. destruct (workers self) as [|w ws] eqn:Hw; [done|].
  destruct (_randomPort_Normal self random) as (w' & _ & _ & H);
    [by rewrite Hw | done | congruence].
Qed.

(** X11. With a draw in the unit interval the only [TypeError] of the
    port-selection code is the empty worker list met by a random draw:
    [_randomPort] and the constructor fault exactly when the list is empty,
    and the aggregation, over slots in the exact range, exactly when
    moreover no slot has a finite score. *)
Theorem faults_exactly (self : LoadBalancer) (options : Options)
    (random : Q) :
  valid_random random ->
  (_randomPort self random = TypeError <-> workers self = []) /\
  (LoadBalancer_new options random = TypeError <->
   opt_workers options = []) /\
  (safe_slots (workerStatuses self) ->
   (calculateLeastBusyPort self random = TypeError <->
    workers self = [] /\
    forall e, e ∈ workerStatuses self -> business e.2 = Infinity)).
Proof.
  intros Hr. pose proof (_randomPort_TypeError self random Hr) as Hrp.
  split; [done|]. split.
  - unfold LoadBalancer_new.
    match goal with
    | |- context [_randomPort ?s random] =>
        pose proof (_randomPort_TypeError s random Hr) as Hn;
        destruct (_randomPort s random)
    end; simpl in *; split; try done.
    + intros E. by apply Hn in E.
    + intros _. by apply Hn.
  - intros _.
    pose proof (least_busy_loop_Infinity (workerStatuses self)) as HI.
    unfold calculateLeastBusyPort.
    destruct (least_busy_loop (workerStatuses self)) as [minB lbp].
    simpl in HI. destruct minB as [m|]; simpl.
    + split; [done|]. intros [_ Hall]. by apply HI in Hall.
    + destruct (_randomPort self random); simpl; split; try done.
      * intros [E _]. by apply Hrp in E.
      * intros _. split; [by apply Hrp | by apply HI].
Qed.

Lemma faults_exactly_witness :
  _randomPort empty_balancer (1 # 2) = TypeError /\
  workers (two_worker_balancer 8081) <> [] /\
  LoadBalancer_new (mkOptions None None []) (1 # 2) = TypeError /\
  calculateLeastBusyPort empty_balancer (1 # 2) = TypeError.
Proof.
  destruct (faults_exactly empty_balancer (mkOptions None None []) (1 # 2)
              valid_random_half) as (H0 & H2 & H3).
  destruct (faults_exactly (two_worker_balancer 8081)
              (mkOptions None None []) (1 # 2) valid_random_half)
    as (H1 & _).
  split; [|split; [|split]].
  - by apply H0.
  - intros E. apply H1 in E. discriminate E.
  - by apply H2.
  - apply H3.
    + intros k st Hin. by apply elem_of_nil in Hin.
    + split; [done|]. intros e He. by apply elem_of_nil in He.
Defined.

(** ** The two regular expressions *)

Lemma strip_prefix_Some (p s r : list ascii) :
  strip_prefix p s = Some r <-> s = p ++ r.
Proof.
  revert s. induction p as [|a p IH]; intros s; simpl.
  - split; congruence.
  - destruct s as [|b s]; [split; [done | by intros [=]]|].
    destruct (Ascii.eqb_spec a b) as [->|Hne].
    + rewrite IH. split; [by intros -> | by intros [= ->]].
    + split; [done | intros [= -> _]; done].
Qed.

Lemma take_until_no_stop (stop : ascii) (s : list ascii) :
  stop ∉ take_until stop s.
Proof.
  induction s as [|c s IH]; simpl; [by intros H; apply elem_of_nil in H|].
  destruct (Ascii.eqb_spec c stop) as [->|Hne].
  - intros H. by apply elem_of_nil in H.
  - intros H. apply elem_of_cons in H as [->|H]; [done | by apply IH].
Qed.

Lemma take_until_app (stop : ascii) (a b : list ascii) :
  stop ∉ a -> take_until stop (a ++ b) = a ++ take_until stop b.
Proof.
  induction a as [|c a IH]; simpl; [done|]. intros Hc.
  destruct (Ascii.eqb_spec c stop) as [->|Hne].
  - destruct Hc. apply list_elem_of_here.
  - f_equal. apply IH. intros H. apply Hc. by apply list_elem_of_further.
Qed.

Lemma split_at_Some (d : ascii) (s seg rest : list ascii) :
  split_at d s = Some (seg, rest) <-> s = seg ++ d :: rest /\ d ∉ seg.
Proof.
  revert seg. induction s as [|c s IH]; intros seg; simpl.
  - split; [done|]. intros [E _]. by destruct seg.
  - destruct (Ascii.eqb_spec c d) as [->|Hne].
    + split.
      * intros [= <- <-]. split; [done|]. intros H. by apply elem_of_nil in H.
      * intros [E Hd]. destruct seg as [|x seg]; simpl in E.
        -- by injection E as <-.
        -- injection E as <- _. destruct Hd. apply list_elem_of_here.
    + destruct (split_at d s) as [[seg' rest']|] eqn:Es; simpl.
      * split.
        -- intros [= <- <-]. destruct (proj1 (IH seg') eq_refl) as [-> Hd].
           split; [done|]. intros H.
           apply elem_of_cons in H as [->|H]; [done | by apply Hd].
        -- intros [E Hd]. destruct seg as [|x seg]; simpl in E.
           ++ by injection E as ->.
           ++ injection E as <- ->.
              assert (Some (seg', rest') = Some (seg, rest)) as [= -> ->];
                [|done].
              apply IH. split; [done|]. intros H. apply Hd.
              by apply list_elem_of_further.
      * split; [done|]. intros [E Hd]. destruct seg as [|x seg]; simpl in E.
        -- by injection E as ->.
        -- injection E as <- ->.
           assert (None = Some (seg, rest)) as H; [|done].
           apply IH. split; [done|]. intros H. apply Hd.
           by apply list_elem_of_further.
Qed.

Lemma string_of_list_ascii_eq (l : list ascii) (g : string) :
  string_of_list_ascii l = g <-> l = list_ascii_of_string g.
Proof.
  split; [intros <- | intros ->].
  - by rewrite list_ascii_of_string_of_list_ascii.
  - by rewrite string_of_list_ascii_of_string.
Qed.

Lemma match_destRegex_Some (str g1 g2 g3 : string) :
  match_destRegex str = Some (g1, g2, g3) <->
  exists rest,
    list_ascii_of_string str =
      list_ascii_of_string g1 ++ "_"%char ::
      list_ascii_of_string g2 ++ "_"%char ::
      list_ascii_of_string g3 ++ "_"%char :: rest /\
    ("_"%char ∉ list_ascii_of_string g1) /\
    ("_"%char ∉ list_ascii_of_string g2) /\
    ("_"%char ∉ list_ascii_of_string g3).
Proof.
  unfold match_destRegex. split.
  - destruct (split_at "_" (list_ascii_of_string str)) as [[l1 r1]|] eqn:E1;
      [|done]. simpl.
    destruct (split_at "_" r1) as [[l2 r2]|] eqn:E2; [|done]. simpl.
    destruct (split_at "_" r2) as [[l3 r3]|] eqn:E3; [|done]. simpl.
    intros [= H1 H2 H3].
    apply string_of_list_ascii_eq in H1, H2, H3. subst l1 l2 l3.
    apply split_at_Some in E1 as [-> ?], E2 as [-> ?], E3 as [-> ?].
    by exists r3.
  - intros (rest & E & H1 & H2 & H3).
    assert (split_at "_" (list_ascii_of_string str) =
              Some (list_ascii_of_string g1,
                    list_ascii_of_string g2 ++ "_"%char ::
                    list_ascii_of_string g3 ++ "_"%char :: rest)) as ->
      by by apply split_at_Some.
    simpl.
    assert (split_at "_" (list_ascii_of_string g2 ++ "_"%char ::
                          list_ascii_of_string g3 ++ "_"%char :: rest) =
              Some (list_ascii_of_string g2,
                    list_ascii_of_string g3 ++ "_"%char :: rest)) as ->
      by by apply split_at_Some.
    simpl.
    assert (split_at "_" (list_ascii_of_string g3 ++ "_"%char :: rest) =
              Some (list_ascii_of_string g3, rest)) as ->
      by by apply split_at_Some.
    simpl. by rewrite !string_of_list_ascii_of_string.
Qed.

(** X12. [_destRegex] matches a token exactly when the token starts with
    three segments without [_], each followed by [_]; the capture groups are
    those segments, and what follows the third [_] is ignored. *)
Theorem destRegex_matches (str g1 g2 g3 : string) :
  match_destRegex str = Some (g1, g2, g3) <->
  exists rest,
    list_ascii_of_string str =
      list_ascii_of_string g1 ++ "_"%char ::
      list_ascii_of_string g2 ++ "_"%char ::
      list_ascii_of_string g3 ++ "_"%char :: rest /\
    ("_"%char ∉ list_ascii_of_string g1) /\
    ("_"%char ∉ list_ascii_of_string g2) /\
    ("_"%char ∉ list_ascii_of_string g3).
Proof. apply match_destRegex_Some. Qed.

Lemma destRegex_matches_witness :
  match_destRegex "AAA_8081_ZZZ_xyz" = Some ("AAA", "8081", "ZZZ")%string.
Proof.
  apply (destRegex_matches "AAA_8081_ZZZ_xyz" "AAA" "8081" "ZZZ").
  exists (list_ascii_of_string "xyz"). split; [reflexivity|].
  repeat split; intros H;
    repeat (apply elem_of_cons in H as [H|H]; [discriminate H|]);
    by apply elem_of_nil in H.
Defined.

Lemma sid_literal_Some (s m : list ascii) :
  sid_literal s = Some m <->
  exists post,
    s = list_ascii_of_string "sid=" ++ post /\ m = take_until ";" post.
Proof.
  unfold sid_literal.
  destruct (strip_prefix (list_ascii_of_string "sid=") s) as [rest|] eqn:E;
    simpl.
  - apply strip_prefix_Some in E as ->. split.
    + intros [= <-]. by exists rest.
    + intros (post & Hp & ->). simpl in Hp. by injection Hp as ->.
  - split; [done|]. intros (post & -> & _). by simpl in E.
Qed.

Lemma sid_tail_key (key post : list ascii) :
  key = list_ascii_of_string "sid=" \/ key = list_ascii_of_string "ssid=" ->
  sid_tail (key ++ post) = Some (take_until ";" post).
Proof. by intros [-> | ->]. Qed.

Lemma sid_tail_Some (s m : list ascii) :
  sid_tail s = Some m ->
  exists key post,
    s = key ++ post /\
    (key = list_ascii_of_string "sid=" \/
     key = list_ascii_of_string "ssid=") /\
    m = take_until ";" post.
Proof.
  unfold sid_tail. intros H.
  assert ((exists s', s = "s"%char :: s' /\ sid_literal s' = Some m) \/
          sid_literal s = Some m) as [(s' & -> & Hl)|Hl].
  { destruct s as [|c s']; [right; exact H|].
    destruct (Ascii.eqb_spec c "s") as [->|Hne].
    - simpl in H. destruct (sid_literal s') as [m'|] eqn:E.
      + left. exists s'. split; [done|]. congruence.
      + right. exact H.
    - right. destruct c as [[] [] [] [] [] [] [] []]; done. }
  - apply sid_literal_Some in Hl as (post & -> & ->).
    exists (list_ascii_of_string "ssid="), post. split; [done|]. by split; [right|].
  - apply sid_literal_Some in Hl as (post & -> & ->).
    exists (list_ascii_of_string "sid="), post. split; [done|]. by split; [left|].
Qed.

Lemma sid_search_Some (at_start : bool) (s m : list ascii) :
  sid_search at_start s = Some m ->
  exists pre key post,
    s = pre ++ key ++ post /\
    (key = list_ascii_of_string "sid=" \/
     key = list_ascii_of_string "ssid=") /\
    (at_start = true /\ pre = [] \/
     exists pre' c, pre = pre' ++ [c] /\ is_alnum c = false) /\
    m = take_until ";" post.
Proof.
  revert at_start. induction s as [|x s IH]; intros at_start; simpl.
  - by destruct at_start.
  - unfold sid_match_here.
    destruct (negb (is_alnum x)) eqn:Hx.
    + destruct (sid_tail s) as [m'|] eqn:E.
      * intros [= <-].
        apply sid_tail_Some in E as (key & post & -> & Hk & ->).
        exists [x], key, post. repeat split; try done. right.
        exists [], x. split; [done|]. by apply negb_true_iff.
      * destruct at_start.
        -- destruct (sid_tail (x :: s)) as [m'|] eqn:E'.
           ++ intros [= <-].
              apply sid_tail_Some in E' as (key & post & Hs & Hk & ->).
              exists [], key, post. repeat split; try done. by left.
           ++ intros H. apply IH in H
                as (pre & key & post & -> & Hk & [[? _]|Hb] & ->); [done|].
              destruct Hb as (pre' & c & -> & Hc).
              exists (x :: pre' ++ [c]), key, post.
              repeat split; try done. right. by exists (x :: pre'), c.
        -- intros H. apply IH in H
             as (pre & key & post & -> & Hk & [[? _]|Hb] & ->); [done|].
           destruct Hb as (pre' & c & -> & Hc).
           exists (x :: pre' ++ [c]), key, post.
           repeat split; try done. right. by exists (x :: pre'), c.
    + destruct at_start.
      * destruct (sid_tail (x :: s)) as [m'|] eqn:E'.
        -- intros [= <-].
           apply sid_tail_Some in E' as (key & post & Hs & Hk & ->).
           exists [], key, post. repeat split; try done. by left.
        -- intros H. apply IH in H
             as (pre & key & post & -> & Hk & [[? _]|Hb] & ->); [done|].
           destruct Hb as (pre' & c & -> & Hc).
           exists (x :: pre' ++ [c]), key, post.
           repeat split; try done. right. by exists (x :: pre'), c.
      * intros H. apply IH in H
          as (pre & key & post & -> & Hk & [[? _]|Hb] & ->); [done|].
        destruct Hb as (pre' & c & -> & Hc).
        exists (x :: pre' ++ [c]), key, post.
        repeat split; try done. right. by exists (x :: pre'), c.
Qed.

Lemma sid_search_complete (at_start : bool) (pre key post : list ascii) :
  key = list_ascii_of_string "sid=" \/ key = list_ascii_of_string "ssid=" ->
  (at_start = true /\ pre = [] \/
   exists pre' c, pre = pre' ++ [c] /\ is_alnum c = false) ->
  is_Some (sid_search at_start (pre ++ key ++ post)).
Proof.
  intros Hk [[-> ->]|(pre' & c & -> & Hc)].
  - destruct Hk as [-> | ->]; by eexists.
  - rewrite <- app_assoc. simpl. revert at_start.
    induction pre' as [|x pre' IH]; intros at_start; simpl.
    + unfold sid_match_here. rewrite Hc. simpl.
      by rewrite (sid_tail_key key post Hk).
    + destruct (sid_match_here at_start _); [done|]. apply IH.
Qed.

(** X13. [_sidRegex] finds a token exactly in subjects that hold the key
    [sid=] or [ssid=] at their start or right after a character that is not
    alphanumeric; the token it captures is the text that follows such a key
    up to the next [;], and holds no [;]. *)
Theorem sidRegex_matches (str : string) :
  (forall tok,
     match_sidRegex str = Some tok ->
     exists pre key post,
       list_ascii_of_string str = pre ++ key ++ post /\
       (key = list_ascii_of_string "sid=" \/
        key = list_ascii_of_string "ssid=") /\
       (pre = [] \/ exists pre' c, pre = pre' ++ [c] /\ is_alnum c = false) /\
       list_ascii_of_string tok = take_until ";" post /\
       (";"%char ∉ list_ascii_of_string tok)) /\
  (forall pre key post,
     list_ascii_of_string str = pre ++ key ++ post ->
     key = list_ascii_of_string "sid=" \/
     key = list_ascii_of_string "ssid=" ->
     pre = [] \/ (exists pre' c, pre = pre' ++ [c] /\ is_alnum c = false) ->
     is_Some (match_sidRegex str)).
Proof.
  unfold match_sidRegex. split.
  - intros tok H.
    destruct (sid_search true (list_ascii_of_string str)) as [m|] eqn:E;
      [|done].
    simpl in H. injection H as H. apply string_of_list_ascii_eq in H as ->.
    apply sid_search_Some in E as (pre & key & post & Hs & Hk & Hb & ->).
    exists pre, key, post. repeat split; try done.
    + destruct Hb as [[_ ->]|Hb]; [by left | by right].
    + apply take_until_no_stop.
  - intros pre key post -> Hk Hb.
    destruct (sid_search_complete true pre key post Hk) as [m Hm].
    { destruct Hb as [->|Hb]; [by left | by right]. }
    rewrite Hm. by eexists.
Qed.

Lemma sidRegex_matches_witness :
  (exists pre key post,
     list_ascii_of_string "foo=1; ssid=BBB_x_CCC_;path=/" =
       pre ++ key ++ post /\
     list_ascii_of_string "BBB_x_CCC_" = take_until ";" post) /\
  is_Some (match_sidRegex "a=1&sid=tok").
Proof.
  destruct (sidRegex_matches "foo=1; ssid=BBB_x_CCC_;path=/") as [H1 _].
  destruct (sidRegex_matches "a=1&sid=tok") as [_ H2].
  split.
  - destruct (H1 "BBB_x_CCC_"%string eq_refl)
      as (pre & key & post & Hs & _ & _ & Ht & _).
    by exists pre, key, post.
  - apply (H2 (list_ascii_of_string "a=1&") (list_ascii_of_string "sid=")
              (list_ascii_of_string "tok")); [done | by left |].
    right. exists (list_ascii_of_string "a=1"), "&"%char. by split.
Defined.

Lemma match_sidRegex_nonempty (str tok : string) :
  match_sidRegex str = Some tok -> truthy (Some str) = true.
Proof. by destruct str. Qed.

(** X14. A session token in the query string masks the cookie: when the
    query holds a token, the cookie is not looked at, so that a query token
    without the three-segment prefix yields no hint even when the cookie
    holds a well-formed token. *)
Theorem query_token_masks_cookie
    (url_parse_query : string -> option string) (self : LoadBalancer)
    (url : string) (host cookie1 cookie2 : option string) (tok : string) :
  match_sidRegex (str_or_empty (url_parse_query url)) = Some tok ->
  _parseDest url_parse_query self
    (mkRequest (Some (mkHeaders host cookie1)) url) =
  _parseDest url_parse_query self
    (mkRequest (Some (mkHeaders host cookie2)) url) /\
  (match_destRegex tok = None ->
   _parseDest url_parse_query self
     (mkRequest (Some (mkHeaders host cookie1)) url) = None).
Proof.
  intros Hq. pose proof (match_sidRegex_nonempty _ _ Hq) as Hne.
  unfold _parseDest. cbn [req_headers req_url h_host h_cookie].
  rewrite Hq, Hne. cbn [negb andb].
  split; [done|]. intros ->. by destruct (negb (truthy host)).
Qed.

Lemma query_token_masks_cookie_witness :
  _parseDest query_of_url (two_worker_balancer 8081)
    (request_with "/?sid=plain" (Some "ssid=AAA_8082_ZZZ_")) = None.
Proof.
  apply (query_token_masks_cookie query_of_url (two_worker_balancer 8081)
           "/?sid=plain" (Some "balancer.example"%string)
           (Some "ssid=AAA_8082_ZZZ_"%string) None "plain");
    reflexivity.
Defined.

(** ** Decimal ports *)

Ltac digit_cases d H :=
  let C := fresh "C" in
  assert (d = 0 \/ d = 1 \/ d = 2 \/ d = 3 \/ d = 4 \/ d = 5 \/ d = 6 \/
          d = 7 \/ d = 8 \/ d = 9) as C by (unfold is_digit in H; lia);
  destruct C as [->|[->|[->|[->|[->|[->|[->|[->|[->| ->]]]]]]]]].

Lemma digit_char_value (d : Z) :
  is_digit d -> digit_value (digit_char d) = Some d.
Proof. intros H. digit_cases d H; reflexivity. Qed.

Lemma digit_char_neq (d : Z) (c : ascii) :
  is_digit d -> in_range 48 57 c = false -> digit_char d <> c.
Proof. intros H Hc <-. digit_cases d H; discriminate Hc. Qed.

Lemma digits_not_elem (ds : list Z) (c : ascii) :
  Forall is_digit ds -> in_range 48 57 c = false ->
  c ∉ map digit_char ds.
Proof.
  intros Hds Hc Hin. apply list_elem_of_fmap in Hin as (d & -> & Hd).
  rewrite Forall_forall in Hds. by eapply digit_char_neq; [apply Hds|..].
Qed.

Lemma parse_digits_decimal (ds : list Z) (acc : option Z) :
  Forall is_digit ds ->
  parse_digits 10 (map digit_char ds) acc =
    match ds with
    | [] => acc
    | _ => Some (foldl (fun a d => 10 * a + d) (default 0 acc) ds)
    end.
Proof.
  revert acc. induction ds as [|d ds IH]; intros acc Hds; [done|].
  apply Forall_cons in Hds as [Hd Hds]. simpl.
  rewrite (digit_char_value d Hd).
  destruct (Z.ltb_spec d 10) as [_|?]; [|unfold is_digit in Hd; lia].
  rewrite (IH _ Hds). by destruct ds.
Qed.

Lemma parseInt_decimal (ds : list Z) :
  ds <> [] -> Forall is_digit ds ->
  parseInt (string_of_list_ascii (map digit_char ds)) =
    Some (decimal_value ds).
Proof.
  intros Hne Hds.
  assert (parseInt (string_of_list_ascii (map digit_char ds)) =
            match parse_digits 10 (map digit_char ds) None with
            | Some n => Some (1 * n)
            | None => None
            end) as ->.
  { unfold parseInt. rewrite list_ascii_of_string_of_list_ascii.
    destruct ds as [|d ds]; [done|].
    apply Forall_cons in Hds as [Hd Hds].
    digit_cases d Hd; try reflexivity.
    destruct ds as [|d2 ds]; [reflexivity|].
    apply Forall_cons in Hds as [Hd2 _].
    digit_cases d2 Hd2; reflexivity. }
  rewrite (parse_digits_decimal ds None Hds).
  destruct ds as [|d ds]; [done|]. by rewrite Z.mul_1_l.
Qed.

(** X15. A token [prefix_DIGITS_suffix_...] under the key [sid=] or [ssid=]
    at the start of the query decodes to the number that the digits denote in
    base ten, when that number is not 0 and at most [2 ^ 53], the range in
    which [parseInt] returns it exactly, and the prefix and the suffix hold
    neither [_] nor [;]; the balancer and the cookie play no part. *)
Theorem decimal_port_decodes (url_parse_query : string -> option string)
    (self : LoadBalancer) (req : Request) (headers : Headers) (q : string)
    (key prefix suffix rest : list ascii) (ds : list Z) :
  req_headers req = Some headers ->
  truthy (h_host headers) = true ->
  url_parse_query (req_url req) = Some q ->
  list_ascii_of_string q =
    key ++ prefix ++ "_"%char :: map digit_char ds ++ "_"%char ::
    suffix ++ "_"%char :: rest ->
  key = list_ascii_of_string "sid=" \/ key = list_ascii_of_string "ssid=" ->
  ("_"%char ∉ prefix) -> (";"%char ∉ prefix) ->
  ("_"%char ∉ suffix) -> (";"%char ∉ suffix) ->
  ds <> [] -> Forall is_digit ds -> decimal_value ds <> 0 ->
  decimal_value ds <= 2 ^ 53 ->
  _parseDest url_parse_query self req =
    Some (mkDest "localhost" (Some (decimal_value ds))).
Proof.
  intros Hh Hhost Hq Hlist Hk Hp1 Hp2 Hs1 Hs2 Hne Hds Hv _.
  set (body := prefix ++ "_"%char :: map digit_char ds ++ "_"%char ::
               suffix ++ "_"%char :: rest) in *.
  assert (str_or_empty (Some q) = q) as Hsq.
  { unfold str_or_empty. simpl. destruct q; [|done].
    simpl in Hlist. by destruct Hk as [-> | ->]. }
  assert (match_sidRegex q = Some (string_of_list_ascii (take_until ";" body)))
    as Hsid.
  { unfold match_sidRegex. rewrite Hlist.
    assert (sid_search true (key ++ body) = Some (take_until ";" body)) as ->;
      [|done].
    destruct Hk as [-> | ->]; reflexivity. }
  assert (take_until ";" body =
            prefix ++ "_"%char :: map digit_char ds ++ "_"%char ::
            suffix ++ "_"%char :: take_until ";" rest) as Htok.
  { unfold body. rewrite take_until_app by done. simpl. do 2 f_equal.
    rewrite take_until_app by by apply digits_not_elem.
    simpl. do 2 f_equal. by rewrite take_until_app. }
  assert (match_destRegex (string_of_list_ascii (take_until ";" body)) =
            Some (string_of_list_ascii prefix,
                  string_of_list_ascii (map digit_char ds),
                  string_of_list_ascii suffix)) as Hdest.
  { apply match_destRegex_Some. exists (take_until ";" rest).
    rewrite !list_ascii_of_string_of_list_ascii.
    split; [done|]. split; [done|]. split; [|done].
    by apply digits_not_elem. }
  unfold _parseDest. rewrite Hh, Hhost, Hq, Hsq. cbn [negb].
  rewrite (match_sidRegex_nonempty _ _ Hsid). cbn [negb andb].
  rewrite Hsid, Hdest, (parseInt_decimal ds Hne Hds). simpl.
  by destruct (Z.eqb_spec (decimal_value ds) 0).
Qed.

Lemma decimal_port_decodes_witness :
  _parseDest query_of_url (two_worker_balancer 8081)
    (request_with "/app?ssid=w1_8082_k9_tail;x" (Some "sid=AAA_8081_ZZZ_")) =
    Some (mkDest "localhost" (Some 8082)).
Proof.
  apply (decimal_port_decodes query_of_url (two_worker_balancer 8081)
           (request_with "/app?ssid=w1_8082_k9_tail;x"
              (Some "sid=AAA_8081_ZZZ_"))
           (mkHeaders (Some "balancer.example"%string)
              (Some "sid=AAA_8081_ZZZ_"%string))
           "ssid=w1_8082_k9_tail;x"
           (list_ascii_of_string "ssid=") (list_ascii_of_string "w1")
           (list_ascii_of_string "k9") (list_ascii_of_string "tail;x")
           [8; 0; 8; 2]);
    try reflexivity; try (by right); try discriminate;
    try (intros H;
         repeat (apply elem_of_cons in H as [H|H]; [discriminate H|]);
         by apply elem_of_nil in H).
  repeat constructor; unfold is_digit; lia.
Defined.

(** ** Ties *)

Lemma reachable_enum_ascending (pick : Z) (configured : list Z) (s : System) :
  reachable pick configured s ->
  Forall (fun k => is_index k = true) configured ->
  enum_ascending (workerStatuses (sys_lb s)).
Proof.
  induction 1 as [options random lb pick Hr Hnew Hpick
                 |pick configured s e Hreach IH Hen]; intros Hidx.
  - apply LoadBalancer_new_workers in Hnew as (_ & Hs & _).
    simpl. rewrite Hs. split; constructor.
  - apply Forall_app in Hidx as [Hidx _]. specialize (IH Hidx).
    rewrite step_statuses.
    destruct e as [ws| |c port body random|c port|random|upgrade req random];
      try done.
    destruct Hen as (_ & cyc & Hc & Hin). rewrite Hc.
    destruct (concat_throws body); [done|].
    apply obj_set_ascending; [|done].
    apply reachable_configured_inv in Hreach as [(_ & _ & _ & Hf & _) _].
    rewrite Forall_forall in Hidx. apply Hidx.
    eapply Hf; [|exact Hin]. by eapply list_elem_of_lookup_2.
Qed.

(** X16. When all configured ports are valid array indices (as TCP ports
    are), the status slots of every reachable state are enumerated by
    ascending port, so that, over slots in the exact range with some finite
    score, the aggregation returns normally and the port it leaves in
    [leastBusyPort] is the lowest port among the slots with the minimal
    score, in whatever order the workers were listed or answered. *)
Theorem ties_go_to_lowest_port (pick : Z) (configured : list Z) (s : System)
    (random : Q) :
  reachable pick configured s ->
  Forall (fun k => is_index k = true) configured ->
  safe_slots (workerStatuses (sys_lb s)) ->
  (exists e, e ∈ workerStatuses (sys_lb s) /\ business e.2 <> Infinity) ->
  exists p status self',
    (p, status) ∈ workerStatuses (sys_lb s) /\
    calculateLeastBusyPort (sys_lb s) random = Normal self' /\
    leastBusyPort self' = Some p /\
    least_busy_loop (workerStatuses (sys_lb s)) = (business status, Some p) /\
    (forall e, e ∈ workerStatuses (sys_lb s) ->
               num_lt (business e.2) (business status) = false) /\
    (forall q t, (q, t) ∈ workerStatuses (sys_lb s) ->
                 business t = business status -> p <= q).
Proof.
  intros Hreach Hidx _ Hfin.
  destruct (reachable_enum_ascending _ _ _ Hreach Hidx) as [Hsorted _].
  destruct (calculateLeastBusyPort_first_minimum (sys_lb s) random Hfin)
    as (l1 & p & status & l2 & Hl & Hne & Hbefore & Hafter & Hcalc).
  assert (forall e, e ∈ workerStatuses (sys_lb s) ->
                    num_lt (business e.2) (business status) = false) as Hmin.
  { rewrite Hl. intros e He. apply elem_of_app in He as [He|He].
    - pose proof (Hbefore e He) as Hlt.
      destruct (business e.2), (business status); simpl in *; try done.
      apply Z.ltb_lt in Hlt. apply Z.ltb_ge. lia.
    - apply elem_of_cons in He as [->|He]; [apply num_lt_irrefl|].
      by apply Hafter. }
  assert ((p, status) ∈ workerStatuses (sys_lb s)) as Hin.
  { rewrite Hl. apply elem_of_app; right; apply list_elem_of_here. }
  exists p, status, (set_leastBusyPort (Some p) (sys_lb s)).
  split; [done|]. split; [done|]. split; [done|]. split; [|split; [done|]].
  - pose proof (least_busy_loop_spec (workerStatuses (sys_lb s))) as Hspec.
    pose proof (calculateLeastBusyPort_finite (sys_lb s) random Hfin) as Hf.
    rewrite Hcalc in Hf. injection Hf as Hf.
    destruct (least_busy_loop (workerStatuses (sys_lb s))) as [minB lbp].
    simpl in Hf. subst lbp. destruct Hspec as (Hlow & Hinf & Hex).
    f_equal.
    destruct minB as [m|]; [|by specialize (Hinf eq_refl)].
    destruct (Hex ltac:(done)) as (k1 & p' & s' & k2 & Hk & _ & Hs' & _).
    assert ((p', s') ∈ workerStatuses (sys_lb s)) as Hin'.
    { rewrite Hk. apply elem_of_app; right; apply list_elem_of_here. }
    pose proof (Hmin _ Hin') as H1. pose proof (Hlow _ Hin) as H2.
    simpl in H1, H2. rewrite Hs' in H1.
    destruct (business status) as [b|]; [|done].
    simpl in H1, H2. apply Z.ltb_ge in H1, H2. f_equal. lia.
  - rewrite Hl in *. intros q t Hq Ht. apply elem_of_app in Hq as [Hq|Hq].
    + pose proof (Hbefore _ Hq) as Hlt. simpl in Hlt.
      by rewrite Ht, num_lt_irrefl in Hlt.
    + apply elem_of_cons in Hq as [[= -> ->]|Hq]; [lia|].
      unfold obj_keys in Hsorted. rewrite map_app in Hsorted. simpl in Hsorted.
      change (map fst l1 ++ p :: map fst l2)
        with (map fst l1 ++ [p] ++ map fst l2) in Hsorted.
      rewrite app_assoc in Hsorted.
      assert (p < q); [|lia].
      apply (StronglySorted_app_1_elem_of _ _ _ _ _ Hsorted).
      * apply elem_of_app. right. apply list_elem_of_here.
      * apply list_elem_of_In. apply (in_map fst _ (q, t)).
        by apply list_elem_of_In.
Qed.

Lemma reconfigured_system_safe :
  safe_slots (workerStatuses (sys_lb reconfigured_system)).
Proof.
  intros k status Hin. apply list_elem_of_In in Hin. vm_compute in Hin.
  repeat (destruct Hin as [Hin|Hin];
          [injection Hin as <- <-; split;
           [simpl; lia
           |intros s [= <-]; vm_compute; repeat split; discriminate]|]).
  destruct Hin.
Qed.

Lemma ties_go_to_lowest_port_witness :
  exists p status self',
    (p, status) ∈ workerStatuses (sys_lb reconfigured_system) /\
    calculateLeastBusyPort (sys_lb reconfigured_system) (1 # 2) =
      Normal self' /\
    leastBusyPort self' = Some p /\
    least_busy_loop (workerStatuses (sys_lb reconfigured_system)) =
      (business status, Some p) /\
    (forall e, e ∈ workerStatuses (sys_lb reconfigured_system) ->
               num_lt (business e.2) (business status) = false) /\
    (forall q t, (q, t) ∈ workerStatuses (sys_lb reconfigured_system) ->
                 business t = business status -> p <= q).
Proof.
  apply (ties_go_to_lowest_port 8081 [8081; 8082; 9000] reconfigured_system
           (1 # 2) reconfigured_system_reachable).
  - by repeat constructor.
  - exact reconfigured_system_safe.
  - exists (8082, Some (mkStatus 0 0 0)). split; [|done].
    apply list_elem_of_further, list_elem_of_here.
Defined.
